(** * A shallow embedding of the cpu-raytracer rendering core

    The development follows the C++ sources:

    - [hit_record], [hittable] (hittable.h) and [hittable_list]
      (hittable_list.h);
    - [lambertian], [metal], [dielectric] and the [material] dispatch
      (material.h);
    - [camera]: [ray_color], [get_ray], the pixel loops of [render],
      [initialize] and the whole of [render] as [camera_render]
      (camera.h).

    Numbers.  A C++ [double] is a primitive binary64 float of Rocq
    ([PrimFloat.float]): the arithmetic, the comparisons, infinities and
    NaN are those of IEEE 754 with rounding to nearest even, one rounding
    for each operation of the source (no fused multiply-add, no extended
    precision), and every definition below evaluates by computation.  A
    C++ [int] is a [Z]; the code never leaves the 32-bit range on the
    paths modelled here (counters run from 0 to a bound and [depth] only
    decreases towards 0).

    Effects.  The process-wide random source is an explicit state [rng]
    threaded through every function that draws from it.  A reference
    parameter that the callee writes ([hit_record& rec], [color&
    attenuation], [ray& scattered]) is an argument and a component of the
    result.  Dereferencing a null [shared_ptr<material>] has no defined
    behaviour: functions that may do so return [option], [None] standing
    for that case.

    Headers that are not part of the sources (vec3.h, ray.h, interval.h,
    rtweekend.h, color.h, sphere.h).  Plain data and the componentwise
    vector algebra are modelled below, each definition saying so; the
    remaining helpers (random sampling, [unit_vector], [near_zero],
    [reflect], [refract], [fmin], [pow]) are the fields of the class
    [externals], and those that only [initialize] calls
    ([degrees_to_radians], [tan], [cross], the division of a vector) the
    fields of [camera_externals], so that every theorem holds for any
    implementation of them.

    main.cc is not modelled beyond the camera it configures: the scene it
    builds needs sphere.h, and the two calls of [random_double] in the
    arguments of one constructor are evaluated in an order that the
    language leaves open. *)

From Stdlib Require Import ZArith List Bool Floats Uint63 Lia Permutation.
Import ListNotations.

Set Warnings "-inexact-float".

(* ================================================================== *)
(** * Vectors, rays and intervals                                      *)
(* ================================================================== *)

(** Modelled from the spec: vec3.h is not among the sources.  "Vector3
    (double triple): represents points and directions interchangeably by
    type alias". *)
Record vec3 : Type := mk_vec3 { vec3_x : float; vec3_y : float; vec3_z : float }.

(** Modelled from the spec: the aliases of vec3.h for points and colours. *)
Definition point3 : Type := vec3.

(** Modelled from the spec: see [point3]. *)
Definition color : Type := vec3.

(** Modelled from the spec: vec3.h, [operator+] on two vectors,
    componentwise. *)
Definition vec3_add (u v : vec3) : vec3 :=
  mk_vec3 (vec3_x u + vec3_x v) (vec3_y u + vec3_y v) (vec3_z u + vec3_z v).

(** Modelled from the spec: vec3.h, binary [operator-], componentwise. *)
Definition vec3_sub (u v : vec3) : vec3 :=
  mk_vec3 (vec3_x u - vec3_x v) (vec3_y u - vec3_y v) (vec3_z u - vec3_z v).

(** Modelled from the spec: vec3.h, unary [operator-], componentwise. *)
Definition vec3_neg (v : vec3) : vec3 :=
  mk_vec3 (- vec3_x v) (- vec3_y v) (- vec3_z v).

(** Modelled from the spec: vec3.h, [operator*] of a [double] and a
    vector. *)
Definition vec3_scale (k : float) (v : vec3) : vec3 :=
  mk_vec3 (k * vec3_x v) (k * vec3_y v) (k * vec3_z v).

(** Modelled from the spec: vec3.h, [operator*] on two vectors (the
    componentwise product used to attenuate a colour). *)
Definition vec3_mul (u v : vec3) : vec3 :=
  mk_vec3 (vec3_x u * vec3_x v) (vec3_y u * vec3_y v) (vec3_z u * vec3_z v).

(** Modelled from the spec: vec3.h, the dot product, summed left to
    right. *)
Definition dot (u v : vec3) : float :=
  (vec3_x u * vec3_x v + vec3_y u * vec3_y v + vec3_z u * vec3_z v)%float.

Declare Scope vec3_scope.
Delimit Scope vec3_scope with vec3.
Bind Scope vec3_scope with vec3.
Notation "u + v" := (vec3_add u v) : vec3_scope.
Notation "u - v" := (vec3_sub u v) : vec3_scope.
Notation "- v" := (vec3_neg v) : vec3_scope.
Notation "k *: v" := (vec3_scale k v) (at level 40, left associativity) : vec3_scope.

(** Modelled from the spec: the implicit conversion of an [int] to a
    [double] (exact on the 32-bit range). *)
Definition double_of_int (n : Z) : float :=
  if (n <? 0)%Z then (- of_uint63 (Uint63.of_Z (- n)))%float
  else of_uint63 (Uint63.of_Z n).

(** Modelled from the spec: ray.h is not among the sources.  "Ray: origin
    point + direction vector". *)
Record ray : Type := mk_ray { origin : point3; direction : vec3 }.

(** Modelled from the spec: interval.h is not among the sources.
    "Interval: [min, max] scalar bound". *)
Record interval : Type := mk_interval { interval_min : float; interval_max : float }.

(** Modelled from the spec: rtweekend.h, the constant [infinity]. *)
Definition infinity : float := PrimFloat.infinity.

(* ================================================================== *)
(** * Materials and hit records: the data                              *)
(* ================================================================== *)

(** material.h, class [lambertian]: its private member. *)
Record lambertian : Type := mk_lambertian { lambertian_albedo : color }.

(** material.h, class [metal]: its private members.  Values are built by
    [metal_new] only, as the class has one constructor. *)
Record metal : Type := mk_metal { metal_albedo : color; fuzz : float }.

(** material.h, class [dielectric]: its private member. *)
Record dielectric : Type := mk_dielectric { ir : float }.

(** material.h, [lambertian::lambertian(const color& a)]. *)
Definition lambertian_new (a : color) : lambertian := mk_lambertian a.

(** material.h, [metal::metal(const color& a, double f)]:
    [albedo(a), fuzz(f < 1 ? f : 1)]. *)
Definition metal_new (a : color) (f : float) : metal :=
  mk_metal a (if (f <? 1)%float then f else 1%float).

(** material.h, [dielectric::dielectric(double index_of_refraction)]. *)
Definition dielectric_new (index_of_refraction : float) : dielectric :=
  mk_dielectric index_of_refraction.

(** The objects a [shared_ptr<material>] can point to: the three classes
    of material.h that derive from the abstract class [material]. *)
Inductive material : Type :=
| Lambertian (m : lambertian)
| Metal (m : metal)
| Dielectric (m : dielectric).

(** hittable.h, class [hit_record].  [mat] is a [shared_ptr<material>]:
    [None] is the null pointer of a default-initialised record. *)
Record hit_record : Type := mk_hit_record {
  point : point3;
  normal : vec3;
  t : float;
  mat : option material;
  front_face : bool
}.

(** hittable.h, [hit_record::set_face_normal]: writes [front_face] and
    [normal], the other members stay. *)
Definition set_face_normal (rec : hit_record) (r : ray) (outward_normal : vec3) : hit_record :=
  let front_face' := (dot (direction r) outward_normal <? 0.0)%float in
  let normal' := if front_face' then outward_normal else (- outward_normal)%vec3 in
  mk_hit_record (point rec) normal' (t rec) (mat rec) front_face'.

(* ================================================================== *)
(** * Helpers of the missing headers                                   *)
(* ================================================================== *)

(** The functions of vec3.h, rtweekend.h and the C library that the
    sources call and whose code is not part of them.  [rng] is the state
    of the process-wide random source; a function that draws from it maps
    a state to its result and the next state.  [hit_record_init] is the
    state of a default-initialised [hit_record] local ([hit_record
    temp_rec;]), whose members [t] and [front_face] are indeterminate. *)
Class externals : Type := {
  rng : Type;
  random_double : rng -> float * rng;
  random_unit_vector : rng -> vec3 * rng;
  random_in_unit_disk : rng -> vec3 * rng;
  unit_vector : vec3 -> vec3;
  near_zero : vec3 -> bool;
  reflect : vec3 -> vec3 -> vec3;
  refract : vec3 -> vec3 -> float -> vec3;
  fmin : float -> float -> float;
  pow : float -> float -> float;
  hit_record_init : hit_record
}.

(* ================================================================== *)
(** * Hittables and the hittable collection                            *)
(* ================================================================== *)

(** hittable.h, the abstract class [hittable]: an object is its [hit]
    member function, [bool hit(const ray& r, interval ray_t,
    hit_record& rec) const].  The result pairs the returned flag with the
    state in which the call leaves [rec]. *)
Definition hittable : Type := ray -> interval -> hit_record -> bool * hit_record.

Section Hittable.
Context {E : externals}.

(** hittable_list.h, the loop of [hittable_list::hit] over the remaining
    [objects], from the current values of the locals [temp_rec],
    [hit_anything], [closest_so_far] and of the caller's [rec]. *)
Fixpoint hit_loop (objects : list hittable) (r : ray) (ray_t : interval)
    (temp_rec : hit_record) (hit_anything : bool) (closest_so_far : float)
    (rec : hit_record) : bool * hit_record :=
  match objects with
  | [] => (hit_anything, rec)
  | object :: rest =>
      let '(hit, temp_rec') :=
        object r (mk_interval (interval_min ray_t) closest_so_far) temp_rec in
      if hit
      then hit_loop rest r ray_t temp_rec' true (t temp_rec') temp_rec'
      else hit_loop rest r ray_t temp_rec' hit_anything closest_so_far rec
  end.

(** hittable_list.h, class [hittable_list]: the vector [objects]. *)
Record hittable_list : Type := mk_hittable_list { objects : list hittable }.

(** hittable_list.h, [hittable_list::hittable_list()]. *)
Definition hittable_list_new : hittable_list := mk_hittable_list [].

(** hittable_list.h, [hittable_list::clear]. *)
Definition hittable_list_clear (l : hittable_list) : hittable_list :=
  mk_hittable_list [].

(** hittable_list.h, [hittable_list::add]: [objects.push_back(object)]. *)
Definition hittable_list_add (l : hittable_list) (object : hittable)
    : hittable_list :=
  mk_hittable_list (objects l ++ [object]).

(** hittable_list.h, [hittable_list::hittable_list(shared_ptr<hittable>
    object)]: [add(object)] on the empty list. *)
Definition hittable_list_of (object : hittable) : hittable_list :=
  hittable_list_add hittable_list_new object.

(** hittable_list.h, [hittable_list::hit]: the locals [temp_rec]
    (default-initialised), [hit_anything = false] and
    [closest_so_far = ray_t.max], then the loop. *)
Definition hittable_list_hit (l : hittable_list) : hittable :=
  fun r ray_t rec =>
    hit_loop (objects l) r ray_t hit_record_init false (interval_max ray_t) rec.

End Hittable.

(* ================================================================== *)
(** * The scatter protocol (material.h)                                *)
(* ================================================================== *)

Section Scatter.
Context {E : externals}.

(** What a call of [scatter] leaves behind: the returned flag and the two
    reference parameters [attenuation] and [scattered], which each of the
    three implementations assigns on every path. *)
Record scatter_result : Type := mk_scatter_result {
  did_scatter : bool;
  attenuation : color;
  scattered : ray
}.

(** material.h, [lambertian::scatter]. *)
Definition lambertian_scatter (self : lambertian) (r_in : ray) (hit : hit_record)
    (g : rng) : scatter_result * rng :=
  let '(u, g1) := random_unit_vector g in
  let scatter_direction := (normal hit + u)%vec3 in
  let scatter_direction :=
    if near_zero scatter_direction then normal hit else scatter_direction in
  (mk_scatter_result true (lambertian_albedo self)
     (mk_ray (point hit) scatter_direction), g1).

(** material.h, [metal::scatter]. *)
Definition metal_scatter (self : metal) (r_in : ray) (hit : hit_record)
    (g : rng) : scatter_result * rng :=
  let reflection := reflect (unit_vector (direction r_in)) (normal hit) in
  let '(u, g1) := random_unit_vector g in
  let scattered := mk_ray (point hit) (reflection + fuzz self *: u)%vec3 in
  (mk_scatter_result (0 <? dot (direction scattered) (normal hit))%float
     (metal_albedo self) scattered, g1).

(** material.h, [dielectric::reflectance] (Schlick's approximation). *)
Definition reflectance (cosine ref_idx : float) : float :=
  let r0 := ((1 - ref_idx) / (1 + ref_idx))%float in
  let r0 := (r0 * r0)%float in
  (r0 + (1 - r0) * pow (1 - cosine) 5)%float.

(** material.h, [dielectric::scatter].  The right operand of [||] is
    evaluated, and the random source advanced, only when [cannot_refract]
    is false. *)
Definition dielectric_scatter (self : dielectric) (r_in : ray) (hit : hit_record)
    (g : rng) : scatter_result * rng :=
  let attenuation := mk_vec3 1.0 1.0 1.0 in
  let refraction_ratio := if front_face hit then (1.0 / ir self)%float else ir self in
  let unit_direction := unit_vector (direction r_in) in
  let cos_theta := fmin (dot (- unit_direction)%vec3 (normal hit)) 1.0 in
  let sin_theta := PrimFloat.sqrt (1 - cos_theta * cos_theta)%float in
  let cannot_refract := (1.0 <? refraction_ratio * sin_theta)%float in
  let '(reflects, g1) :=
    if cannot_refract then (true, g)
    else let '(x, g1) := random_double g in
         ((x <? reflectance cos_theta refraction_ratio)%float, g1) in
  let direction :=
    if reflects then reflect unit_direction (normal hit)
    else refract unit_direction (normal hit) refraction_ratio in
  (mk_scatter_result true attenuation (mk_ray (point hit) direction), g1).

(** material.h, the virtual call [mat->scatter(r_in, hit, attenuation,
    scattered)] on a non-null [mat]. *)
Definition scatter (m : material) (r_in : ray) (hit : hit_record) (g : rng)
    : scatter_result * rng :=
  match m with
  | Lambertian self => lambertian_scatter self r_in hit g
  | Metal self => metal_scatter self r_in hit g
  | Dielectric self => dielectric_scatter self r_in hit g
  end.

End Scatter.

(* ================================================================== *)
(** * The camera (camera.h)                                            *)
(* ================================================================== *)

(** camera.h, class [camera]: the public configuration members, then the
    private members that [initialize] derives from them before the pixel
    loops run. *)
Record camera : Type := mk_camera {
  aspect_ratio : float;
  image_width : Z;
  samples_per_pixel : Z;
  max_depth : Z;
  vfov : float;
  lookfrom : point3;
  lookat : point3;
  vup : vec3;
  defocus_angle : float;
  focus_dist : float;
  image_height : Z;
  center : point3;
  pixel00_loc : point3;
  pixel_delta_u : vec3;
  pixel_delta_v : vec3;
  defocus_disk_u : vec3;
  defocus_disk_v : vec3
}.

(** color.h is not among the sources: a call
    [write_color(std::cout, pixel_color, samples_per_pixel)] is recorded
    by the two values it hands to the encoder. *)
Record write_color_call : Type := mk_write_color_call {
  handed_color : color;
  handed_samples : Z
}.

Section Camera.
Context {E : externals}.

(** camera.h, the background of [camera::ray_color] (the three statements
    after the hit test). *)
Definition background (r : ray) : color :=
  let unit_direction := unit_vector (direction r) in
  let a := (0.5 * (vec3_y unit_direction + 1.0))%float in
  ((1.0 - a)%float *: mk_vec3 1.0 1.0 1.0 + a *: mk_vec3 0.5 0.7 1.0)%vec3.

(** camera.h, [camera::ray_color], by recursion on [fuel]: a call with
    [depth > 0] uses one unit for the call it makes with [depth - 1].
    [None] is the dereference of a null [hit.mat]; the [O] branch is not
    reached from [ray_color] below, see [ray_color_equation]. *)
Fixpoint ray_color_fuel (fuel : nat) (r : ray) (depth : Z) (world : hittable)
    (g : rng) : option (color * rng) :=
  if (depth <=? 0)%Z then Some (mk_vec3 0 0 0, g)
  else
    match fuel with
    | O => None
    | S fuel' =>
        let '(found, hit) := world r (mk_interval 0.001 infinity) hit_record_init in
        if found then
          match mat hit with
          | None => None
          | Some m =>
              let '(s, g1) := scatter m r hit g in
              if did_scatter s then
                match ray_color_fuel fuel' (scattered s) (depth - 1) world g1 with
                | None => None
                | Some (c, g2) => Some (vec3_mul (attenuation s) c, g2)
                end
              else Some (mk_vec3 0 0 0, g1)
          end
        else Some (background r, g)
    end.

(** camera.h, [camera::ray_color(r, depth, world)]. *)
Definition ray_color (r : ray) (depth : Z) (world : hittable) (g : rng)
    : option (color * rng) :=
  ray_color_fuel (Z.to_nat depth) r depth world g.

(** camera.h, [camera::pixel_sample_square]. *)
Definition pixel_sample_square (cam : camera) (g : rng) : vec3 * rng :=
  let '(x1, g1) := random_double g in
  let px := (-0.5 + x1)%float in
  let '(x2, g2) := random_double g1 in
  let py := (-0.5 + x2)%float in
  ((px *: pixel_delta_u cam + py *: pixel_delta_v cam)%vec3, g2).

(** camera.h, [camera::defocus_disk_sample]. *)
Definition defocus_disk_sample (cam : camera) (g : rng) : point3 * rng :=
  let '(p, g1) := random_in_unit_disk g in
  ((center cam + vec3_x p *: defocus_disk_u cam + vec3_y p *: defocus_disk_v cam)%vec3, g1).

(** camera.h, [camera::get_ray(i, j)]. *)
Definition get_ray (cam : camera) (i j : Z) (g : rng) : ray * rng :=
  let pixel_center :=
    (pixel00_loc cam + double_of_int i *: pixel_delta_u cam
       + double_of_int j *: pixel_delta_v cam)%vec3 in
  let '(offset, g1) := pixel_sample_square cam g in
  let pixel_sample := (pixel_center + offset)%vec3 in
  let '(ray_origin, g2) :=
    if (defocus_angle cam <=? 0)%float then (center cam, g1)
    else defocus_disk_sample cam g1 in
  let ray_direction := (pixel_sample - ray_origin)%vec3 in
  (mk_ray ray_origin ray_direction, g2).

(** camera.h, [camera::render]: the loop
    [for (sample = 0; sample < samples_per_pixel; ++sample)] with
    [remaining] iterations to go and the accumulator [pixel_color]. *)
Fixpoint sample_loop (remaining : nat) (cam : camera) (world : hittable) (i j : Z)
    (pixel_color : color) (g : rng) : option (color * rng) :=
  match remaining with
  | O => Some (pixel_color, g)
  | S remaining' =>
      let '(r, g1) := get_ray cam i j g in
      match ray_color r (max_depth cam) world g1 with
      | None => None
      | Some (c, g2) =>
          sample_loop remaining' cam world i j (pixel_color + c)%vec3 g2
      end
  end.

(** camera.h, [camera::render]: the body of the loop over [i], from
    [color pixel_color(0,0,0)] to the call of [write_color]. *)
Definition render_pixel (cam : camera) (world : hittable) (i j : Z) (g : rng)
    : option (write_color_call * rng) :=
  match sample_loop (Z.to_nat (samples_per_pixel cam)) cam world i j (mk_vec3 0 0 0) g with
  | None => None
  | Some (pixel_color, g1) =>
      Some (mk_write_color_call pixel_color (samples_per_pixel cam), g1)
  end.

(** camera.h, [camera::render]: the loop
    [for (int i = 0; i < image_width; ++i)] of scanline [j], from column
    [i] with [remaining] columns to go; the calls of [write_color] in
    order. *)
Fixpoint render_scanline (remaining : nat) (cam : camera) (world : hittable)
    (i j : Z) (g : rng) : option (list write_color_call * rng) :=
  match remaining with
  | O => Some ([], g)
  | S remaining' =>
      match render_pixel cam world i j g with
      | None => None
      | Some (call, g1) =>
          match render_scanline remaining' cam world (i + 1) j g1 with
          | None => None
          | Some (calls, g2) => Some (call :: calls, g2)
          end
      end
  end.

(** camera.h, [camera::render]: the loop
    [for (int j = 0; j < image_height; ++j)], from scanline [j] with
    [remaining] scanlines to go. *)
Fixpoint render_scanlines (remaining : nat) (cam : camera) (world : hittable)
    (j : Z) (g : rng) : option (list write_color_call * rng) :=
  match remaining with
  | O => Some ([], g)
  | S remaining' =>
      match render_scanline (Z.to_nat (image_width cam)) cam world 0 j g with
      | None => None
      | Some (row, g1) =>
          match render_scanlines remaining' cam world (j + 1) g1 with
          | None => None
          | Some (rows, g2) => Some (row ++ rows, g2)
          end
      end
  end.

(** camera.h, [camera::render] once [initialize] has set the private
    members of [cam]: every call of [write_color], top scanline first.
    The header of the image and the progress log are left out. *)
Definition render (cam : camera) (world : hittable) (g : rng)
    : option (list write_color_call * rng) :=
  render_scanlines (Z.to_nat (image_height cam)) cam world 0 g.

End Camera.

(* ================================================================== *)
(** * More of material.h and camera.h                                *)
(* ================================================================== *)

(** material.h: the colour that [scatter] assigns to [attenuation], by
    the class of the material: [albedo] for a [lambertian] or a [metal],
    [color(1.0, 1.0, 1.0)] for a [dielectric]. *)
Definition material_attenuation (m : material) : color :=
  match m with
  | Lambertian self => lambertian_albedo self
  | Metal self => metal_albedo self
  | Dielectric _ => mk_vec3 1.0 1.0 1.0
  end.

Section DielectricLocals.
Context {E : externals}.

(** material.h, [dielectric::scatter]: the local [cannot_refract], from
    [refraction_ratio], [cos_theta] and [sin_theta] as the function
    computes them. *)
Definition cannot_refract (self : dielectric) (r_in : ray) (hit : hit_record) : bool :=
  let refraction_ratio := if front_face hit then (1.0 / ir self)%float else ir self in
  let unit_direction := unit_vector (direction r_in) in
  let cos_theta := fmin (dot (- unit_direction)%vec3 (normal hit)) 1.0 in
  let sin_theta := PrimFloat.sqrt (1 - cos_theta * cos_theta)%float in
  (1.0 <? refraction_ratio * sin_theta)%float.

End DielectricLocals.

(** The conversion [static_cast<int>(x)] of a [double]: the value
    truncated toward zero.  The behaviour is undefined, [None], when [x]
    is NaN or infinite or the truncated value is not an [int] (32 bits). *)
Definition static_cast_int (x : float) : option Z :=
  match Prim2SF x with
  | S754_zero _ => Some 0%Z
  | S754_finite s m e =>
      let n := cond_Zopp s (Z.shiftl (Zpos m) e) in
      if ((- 2 ^ 31 <=? n) && (n <? 2 ^ 31))%Z then Some n else None
  | _ => None
  end.

(** The functions of rtweekend.h, vec3.h and the C library that
    [camera::initialize] calls and whose code is not part of the sources:
    [degrees_to_radians], [tan], [cross], [operator/] of a vector and a
    [double], and [operator*] of a vector and a [double], in this order of
    the operands. *)
Class camera_externals : Type := {
  degrees_to_radians : float -> float;
  tan : float -> float;
  cross : vec3 -> vec3 -> vec3;
  vec3_div : vec3 -> float -> vec3;
  vec3_times : vec3 -> float -> vec3
}.

(** camera.h: the header that [camera::render] writes before the pixels,
    ["P3\n" << image_width << ' ' << image_height << "\n255\n"], by the
    three numbers it declares. *)
Record image_header : Type := mk_image_header {
  header_width : Z;
  header_height : Z;
  header_max : Z
}.

Section Initialize.
Context {E : externals} {C : camera_externals}.

(** camera.h, [camera::initialize]: the private members from the public
    ones.  The basis vectors [u], [v], [w], members that no other function
    reads, are locals here.  [None] is the undefined conversion of
    [image_width / aspect_ratio] to [int]. *)
Definition initialize (cam : camera) : option camera :=
  match static_cast_int (double_of_int (image_width cam) / aspect_ratio cam)%float with
  | None => None
  | Some image_height0 =>
      let image_height' := if (image_height0 <? 1)%Z then 1%Z else image_height0 in
      let center' := lookfrom cam in
      let theta := degrees_to_radians (vfov cam) in
      let h := tan (theta / 2)%float in
      let viewport_height := (2 * h * focus_dist cam)%float in
      let viewport_width :=
        (viewport_height
         * (double_of_int (image_width cam) / double_of_int image_height'))%float in
      let w := unit_vector (lookfrom cam - lookat cam)%vec3 in
      let u := unit_vector (cross (vup cam) w) in
      let v := cross w u in
      let viewport_u := (viewport_width *: u)%vec3 in
      let viewport_v := (viewport_height *: (- v))%vec3 in
      let pixel_delta_u' := vec3_div viewport_u (double_of_int (image_width cam)) in
      let pixel_delta_v' := vec3_div viewport_v (double_of_int image_height') in
      let viewport_upper_left :=
        (center' - focus_dist cam *: w - vec3_div viewport_u 2
         - vec3_div viewport_v 2)%vec3 in
      let pixel00_loc' :=
        (viewport_upper_left + 0.5 *: (pixel_delta_u' + pixel_delta_v'))%vec3 in
      let defocus_radius :=
        (focus_dist cam * tan (degrees_to_radians (defocus_angle cam / 2)))%float in
      Some {|
        aspect_ratio := aspect_ratio cam;
        image_width := image_width cam;
        samples_per_pixel := samples_per_pixel cam;
        max_depth := max_depth cam;
        vfov := vfov cam;
        lookfrom := lookfrom cam;
        lookat := lookat cam;
        vup := vup cam;
        defocus_angle := defocus_angle cam;
        focus_dist := focus_dist cam;
        image_height := image_height';
        center := center';
        pixel00_loc := pixel00_loc';
        pixel_delta_u := pixel_delta_u';
        pixel_delta_v := pixel_delta_v';
        defocus_disk_u := vec3_times u defocus_radius;
        defocus_disk_v := vec3_times v defocus_radius
      |}
  end.

(** camera.h, [camera::render(world)] from its first statement:
    [initialize()], the header, then the pixel loops of [render].  The
    progress log is left out. *)
Definition camera_render (cam : camera) (world : hittable) (g : rng)
    : option (image_header * list write_color_call * rng) :=
  match initialize cam with
  | None => None
  | Some cam' =>
      let header := mk_image_header (image_width cam') (image_height cam') 255 in
      match render cam' world g with
      | None => None
      | Some (calls, g') => Some (header, calls, g')
      end
  end.

End Initialize.

(* ================================================================== *)
(** * What the specification compares the code with                    *)
(* ================================================================== *)

(** The hit protocol of a member, for one ray and one lower bound: the
    member has a nearest intersection beyond [t_min] ([nearest], or none),
    and a test over [[t_min, t_max]] reports exactly that intersection when
    its [t] is below [t_max], and no hit otherwise, whatever the record it
    is handed. *)
Definition reports_nearest (object : hittable) (r : ray) (t_min : float)
    (nearest : option hit_record) : Prop :=
  forall (t_max : float) (rec : hit_record),
    match nearest with
    | Some h =>
        if (t h <? t_max)%float
        then object r (mk_interval t_min t_max) rec = (true, h)
        else fst (object r (mk_interval t_min t_max) rec) = false
    | None => fst (object r (mk_interval t_min t_max) rec) = false
    end.

(** A member honours the interval it is given. *)
Definition honours_interval (object : hittable) (r : ray) (t_min : float) : Prop :=
  exists nearest : option hit_record, reports_nearest object r t_min nearest.

(** Testing one member on its own over [ray_t], from the record [rec]. *)
Definition individual_hit (object : hittable) (r : ray) (ray_t : interval)
    (rec : hit_record) : option hit_record :=
  let '(found, h) := object r ray_t rec in
  if found then Some h else None.

(** The valid hits of the members, each tested individually over the same
    interval, in the order of the members. *)
Definition individual_hits (objects : list hittable) (r : ray) (ray_t : interval)
    (rec : hit_record) : list hit_record :=
  flat_map
    (fun object =>
       match individual_hit object r ray_t rec with
       | Some h => [h]
       | None => []
       end)
    objects.

(** The nearer of the best hit so far and the next one; the earlier hit
    wins a tie. *)
Definition nearer (best : option hit_record) (h : hit_record) : option hit_record :=
  match best with
  | None => Some h
  | Some b => if (t h <? t b)%float then Some h else Some b
  end.

(** The hit with minimum [t] of a list of hits. *)
Definition minimum_t_hit (hits : list hit_record) : option hit_record :=
  fold_left nearer hits None.

(** The sum of a list of colours, in order, from [acc]. *)
Definition sum_colors (acc : color) (cs : list color) : color :=
  fold_left vec3_add cs acc.

(** The average of [n] samples: their sum scaled by [1 / n]. *)
Definition sample_average (cs : list color) (n : Z) : color :=
  ((1.0 / double_of_int n)%float *: sum_colors (mk_vec3 0 0 0) cs)%vec3.

(** The invariant of a vector in the data model of the specification,
    "component finiteness": a component is finite when its absolute value
    is below infinity (so it is neither an infinity nor NaN). *)
Definition isfinite (x : float) : bool := (abs x <? infinity)%float.

(** Every component of the vector is finite. *)
Definition vec3_finite (v : vec3) : bool :=
  isfinite (vec3_x v) && isfinite (vec3_y v) && isfinite (vec3_z v).

(** What is used of the unit length of a normal: no component exceeds 1
    in absolute value. *)
Definition unit_bounded (v : vec3) : bool :=
  (abs (vec3_x v) <=? 1)%float && (abs (vec3_y v) <=? 1)%float
  && (abs (vec3_z v) <=? 1)%float.

(** A binary64 value with the sign of a zero forgotten: [+0] and [-0]
    compare equal, and differ in nothing that the comparisons observe. *)
Definition forget_zero_sign (x : spec_float) : spec_float :=
  match x with S754_zero _ => S754_zero false | _ => x end.

(** A binary64 value that is a zero or a finite number. *)
Definition SF_is_finite (x : spec_float) : bool :=
  match x with S754_zero _ | S754_finite _ _ _ => true | _ => false end.

(** A binary64 value of magnitude at least [2 ^ -54], or an infinity:
    far above the [1e-8] that [near_zero] compares with. *)
Definition SF_large (x : spec_float) : bool :=
  match x with
  | S754_infinity _ => true
  | S754_finite _ _ e => (-54 <=? e)%Z
  | _ => false
  end.

(** What is used of the unit length of a random unit vector: one of three
    components whose squares sum to 1 is at least [1/sqrt 3], so at least
    one half, in absolute value. *)
Definition has_large_component (v : vec3) : bool :=
  (0.5 <=? abs (vec3_x v))%float || (0.5 <=? abs (vec3_y v))%float
  || (0.5 <=? abs (vec3_z v))%float.

(** The fold of [nearer] from a hit [b]: it never ends without a hit. *)
Definition nearest_from (b : hit_record) (hits : list hit_record) : hit_record :=
  fold_left (fun b h => if (t h <? t b)%float then h else b) hits b.

Section Samples.
Context {E : externals}.

(** The results of the [remaining] calls of [ray_color] that the sample
    loop of one pixel makes, in order. *)
Fixpoint pixel_samples (remaining : nat) (cam : camera) (world : hittable)
    (i j : Z) (g : rng) : option (list color * rng) :=
  match remaining with
  | O => Some ([], g)
  | S remaining' =>
      let '(r, g1) := get_ray cam i j g in
      match ray_color r (max_depth cam) world g1 with
      | None => None
      | Some (c, g2) =>
          match pixel_samples remaining' cam world i j g2 with
          | None => None
          | Some (cs, g3) => Some (c :: cs, g3)
          end
      end
  end.

(** What [write_color] is handed for a pixel of [cam]: the sum of the
    samples of some pixel, and the sample count. *)
Definition hands_sum (cam : camera) (world : hittable) (call : write_color_call)
    : Prop :=
  exists (i j : Z) (g0 g1 : rng) (cs : list color),
    pixel_samples (Z.to_nat (samples_per_pixel cam)) cam world i j g0 = Some (cs, g1)
    /\ call = mk_write_color_call (sum_colors (mk_vec3 0 0 0) cs)
                (samples_per_pixel cam).

(** The background gradient in the words of the specification: the linear
    interpolation [(1-a)*white + a*sky-blue], channel by channel, with
    [a = 0.5*(y+1)] and [y] the vertical component of the unit direction. *)
Definition sky_gradient (r : ray) : color :=
  let y := vec3_y (unit_vector (direction r)) in
  let a := (0.5 * (y + 1.0))%float in
  mk_vec3 ((1.0 - a) * 1.0 + a * 0.5) ((1.0 - a) * 1.0 + a * 0.7)
          ((1.0 - a) * 1.0 + a * 1.0).

End Samples.

(** A colour whose three components are zero ([+0] or [-0]). *)
Definition is_black (c : color) : bool :=
  (vec3_x c =? 0)%float && (vec3_y c =? 0)%float && (vec3_z c =? 0)%float.

Section Worlds.
Context {E : externals}.

(** A world whose hits carry a material, which is what [ray_color]
    dereferences [hit.mat] for. *)
Definition hits_carry_material (world : hittable) : Prop :=
  forall r : ray,
    fst (world r (mk_interval 0.001 infinity) hit_record_init) = true ->
    mat (snd (world r (mk_interval 0.001 infinity) hit_record_init)) <> None.

(** A world that every ray hits, on a material of finite attenuation: a
    closed room, from which no ray reaches the background. *)
Definition encloses (world : hittable) : Prop :=
  forall r : ray,
    fst (world r (mk_interval 0.001 infinity) hit_record_init) = true
    /\ exists m : material,
         mat (snd (world r (mk_interval 0.001 infinity) hit_record_init)) = Some m
         /\ vec3_finite (material_attenuation m) = true.

(** Whether the path that [ray_color] follows from [r] ends within [n]
    hit tests: on a miss, on an absorbed ray or on a hit without
    material. *)
Fixpoint path_ends (n : nat) (r : ray) (world : hittable) (g : rng) : bool :=
  match n with
  | O => false
  | S n' =>
      let '(found, hit) := world r (mk_interval 0.001 infinity) hit_record_init in
      if found then
        match mat hit with
        | None => true
        | Some m =>
            let '(s, g1) := scatter m r hit g in
            if did_scatter s then path_ends n' (scattered s) world g1 else true
        end
      else true
  end.

End Worlds.

(* ================================================================== *)
(** * A reference implementation of the helpers                        *)
(* ================================================================== *)

(** One instance of [externals], to run the model on concrete inputs.  No
    theorem on the code depends on it: each holds for every instance. *)

(** The random source as a tape: the sequence of the values that
    [random_double] will return, and the position of the next one. *)
Record tape : Type := mk_tape { draws : nat -> float; position : nat }.

(** Modelled from the spec: rtweekend.h, [random_double()], "a single
    shared random source": the next value of the tape. *)
Definition tape_random_double (g : tape) : float * tape :=
  (draws g (position g), mk_tape (draws g) (S (position g))).

(** Modelled from the spec: vec3.h, the length of a vector. *)
Definition vec3_length (v : vec3) : float := PrimFloat.sqrt (dot v v).

(** Modelled from the spec: vec3.h, [unit_vector]: the vector scaled by the
    inverse of its length. *)
Definition reference_unit_vector (v : vec3) : vec3 :=
  ((1 / vec3_length v)%float *: v)%vec3.

(** Modelled from the spec: vec3.h, [vec3::near_zero]: "near-zero
    magnitude", every component below 1e-8 in absolute value. *)
Definition reference_near_zero (v : vec3) : bool :=
  (abs (vec3_x v) <? 1e-8)%float && (abs (vec3_y v) <? 1e-8)%float
  && (abs (vec3_z v) <? 1e-8)%float.

(** Modelled from the spec: vec3.h, [reflect]; material.h quotes the
    formula, [v - 2*dot(v,n)*n]. *)
Definition reference_reflect (v n : vec3) : vec3 :=
  (v - (2 * dot v n)%float *: n)%vec3.

(** Modelled from the spec: the C library's [fmin]: the smaller argument,
    the other one when one is NaN. *)
Definition reference_fmin (a b : float) : float :=
  if (b <? a)%float then b else if is_nan a then b else a.

(** Modelled from the spec: vec3.h, [refract] (Snell's law): the
    components of the refracted direction perpendicular and parallel to
    the normal. *)
Definition reference_refract (uv n : vec3) (etai_over_etat : float) : vec3 :=
  let cos_theta := reference_fmin (dot (- uv)%vec3 n) 1.0 in
  let r_out_perp := (etai_over_etat *: (uv + cos_theta *: n))%vec3 in
  let r_out_parallel :=
    ((- PrimFloat.sqrt (abs (1.0 - dot r_out_perp r_out_perp)))%float *: n)%vec3 in
  (r_out_perp + r_out_parallel)%vec3.

(** Modelled from the spec: the C library's [pow], which the sources call
    with the exponent 5 only: the fifth power by repeated multiplication,
    whatever the second argument. *)
Definition reference_pow (a b : float) : float := (a * a * a * a * a)%float.

(** Modelled from the spec: vec3.h, [random_unit_vector], of which the
    specification says only that it returns a random unit vector: three
    draws mapped to [[-1,1)] and normalised. *)
Definition tape_random_unit_vector (g : tape) : vec3 * tape :=
  let '(a, g1) := tape_random_double g in
  let '(b, g2) := tape_random_double g1 in
  let '(c, g3) := tape_random_double g2 in
  (reference_unit_vector (mk_vec3 (2 * a - 1) (2 * b - 1) (2 * c - 1)), g3).

(** Modelled from the spec: vec3.h, [random_in_unit_disk], of which the
    specification says only that the lens sample lies in a disk: two
    draws mapped to a square inside the unit disk. *)
Definition tape_random_in_unit_disk (g : tape) : vec3 * tape :=
  let '(a, g1) := tape_random_double g in
  let '(b, g2) := tape_random_double g1 in
  (mk_vec3 (0.7 * (2 * a - 1)) (0.7 * (2 * b - 1)) 0, g2).

(** The helpers above, with a default-initialised [hit_record] whose
    indeterminate members are zero and false. *)
#[export] Instance reference_externals : externals := {
  rng := tape;
  random_double := tape_random_double;
  random_unit_vector := tape_random_unit_vector;
  random_in_unit_disk := tape_random_in_unit_disk;
  unit_vector := reference_unit_vector;
  near_zero := reference_near_zero;
  reflect := reference_reflect;
  refract := reference_refract;
  fmin := reference_fmin;
  pow := reference_pow;
  hit_record_init := mk_hit_record (mk_vec3 0 0 0) (mk_vec3 0 0 0) 0 None false
}.

(** Modelled from the spec: rtweekend.h, [degrees_to_radians]:
    [degrees * pi / 180.0]. *)
Definition reference_degrees_to_radians (degrees : float) : float :=
  (degrees * 3.1415926535897932385 / 180.0)%float.

(** Modelled from the spec: the C library's [tan], by the first terms of
    its series at 0, for the small angles of the examples. *)
Definition reference_tan (x : float) : float :=
  let x2 := (x * x)%float in
  (x * (1 + x2 * (1 / 3 + x2 * (2 / 15 + x2 * (17 / 315 + x2 * (62 / 2835))))))%float.

(** Modelled from the spec: vec3.h, the cross product. *)
Definition reference_cross (u v : vec3) : vec3 :=
  mk_vec3 (vec3_y u * vec3_z v - vec3_z u * vec3_y v)
          (vec3_z u * vec3_x v - vec3_x u * vec3_z v)
          (vec3_x u * vec3_y v - vec3_y u * vec3_x v).

(** Modelled from the spec: vec3.h, [operator/] of a vector and a
    [double]: the vector scaled by the inverse. *)
Definition reference_vec3_div (v : vec3) (k : float) : vec3 :=
  ((1 / k)%float *: v)%vec3.

(** Modelled from the spec: vec3.h, [operator*] of a vector and a
    [double]. *)
Definition reference_vec3_times (v : vec3) (k : float) : vec3 := (k *: v)%vec3.

(** The helpers of [initialize], to run it on concrete cameras. *)
#[export] Instance reference_camera_externals : camera_externals := {
  degrees_to_radians := reference_degrees_to_radians;
  tan := reference_tan;
  cross := reference_cross;
  vec3_div := reference_vec3_div;
  vec3_times := reference_vec3_times
}.

(* ================================================================== *)
(** * Concrete scenes                                                  *)
(* ================================================================== *)

(** Modelled from the spec: interval.h, the "surrounds" check of an
    interval, strict on both sides. *)
Definition surrounds (i : interval) (x : float) : bool :=
  (interval_min i <? x)%float && (x <? interval_max i)%float.

(** Modelled from the spec: sphere.h is not among the sources.  The root
    selection of an analytic shape whose intersections with the ray lie at
    the parameters [t1 <= t2]: "return the smaller root if it lies within
    the interval, else the larger root if that lies within the interval,
    else report no hit".  The record of a hit carries the point on the
    ray, the normal [(0,1,0)] and no material. *)
Definition two_root_shape (t1 t2 : float) : hittable :=
  fun r ray_t rec =>
    let hit_at root :=
      (true, mk_hit_record (origin r + root *: direction r)%vec3
               (mk_vec3 0 1 0) root None true) in
    if surrounds ray_t t1 then hit_at t1
    else if surrounds ray_t t2 then hit_at t2
    else (false, rec).

(** A shape with a single intersection, at [t0]. *)
Definition plane_at (t0 : float) : hittable := two_root_shape t0 t0.

(** A member that ignores the interval and always reports a hit at
    parameter [t0]. *)
Definition always_at (t0 : float) : hittable :=
  fun r ray_t rec =>
    (true, mk_hit_record (origin r + t0 *: direction r)%vec3
             (mk_vec3 0 1 0) t0 None true).

(** A ray from the origin straight up. *)
Definition ray_up : ray := mk_ray (mk_vec3 0 0 0) (mk_vec3 0 1 0).

(** The interval of [camera::ray_color]. *)
Definition ray_color_interval : interval := mk_interval 0.001 infinity.

(** A tape on which every draw is [0.5]: no jitter inside the pixel. *)
Definition tape_half : tape := mk_tape (fun _ => 0.5%float) 0.

(** A one-pixel camera at the origin looking straight up, two samples per
    pixel: the private members are those of [lookfrom = (0,0,0)],
    [lookat = (0,1,0)], [vup = (0,0,1)], [vfov = 90], [focus_dist = 1],
    [image_width = 1], [aspect_ratio = 1], with [tan(pi/4)] taken as 1. *)
Definition camera_up : camera := {|
  aspect_ratio := 1.0;
  image_width := 1;
  samples_per_pixel := 2;
  max_depth := 10;
  vfov := 90;
  lookfrom := mk_vec3 0 0 0;
  lookat := mk_vec3 0 1 0;
  vup := mk_vec3 0 0 1;
  defocus_angle := 0;
  focus_dist := 1;
  image_height := 1;
  center := mk_vec3 0 0 0;
  pixel00_loc := mk_vec3 0 1 0;
  pixel_delta_u := mk_vec3 2 0 0;
  pixel_delta_v := mk_vec3 0 0 (-2);
  defocus_disk_u := mk_vec3 0 0 0;
  defocus_disk_v := mk_vec3 0 0 0
|}.

(** A record with recognisable members, for the caller's [rec]. *)
Definition record_before : hit_record :=
  mk_hit_record (mk_vec3 1 2 3) (mk_vec3 0 0 1) 7 None false.

(** Modelled from the spec: sphere.h is not among the sources.  A shape
    with a single intersection, at [t0], whose hits carry the material
    [m]. *)
Definition surface_at (t0 : float) (m : material) : hittable :=
  fun r ray_t rec =>
    if surrounds ray_t t0
    then (true, mk_hit_record (origin r + t0 *: direction r)%vec3
                  (mk_vec3 0 1 0) t0 (Some m) true)
    else (false, rec).

(** The grey diffuse material of the ground of main.cc. *)
Definition material_ground : material :=
  Lambertian (lambertian_new (mk_vec3 0.5 0.5 0.5)).

(** A metal of fuzz 1. *)
Definition material_rough : metal := metal_new (mk_vec3 0.8 0.8 0.8) 1.

(** A tape of period 3 on which every random unit vector is [(0,-1,0)]. *)
Definition tape_down : tape :=
  mk_tape (fun n => match Nat.modulo n 3 with 1%nat => 0%float | _ => 0.5%float end) 0.

(** A ray from above straight down. *)
Definition ray_down : ray := mk_ray (mk_vec3 0 1 0) (mk_vec3 0 (-1) 0).

(** A hit at the origin on the front of a surface whose normal points
    up. *)
Definition hit_ground : hit_record :=
  mk_hit_record (mk_vec3 0 0 0) (mk_vec3 0 1 0) 1 None true.

(** A hit at the origin from inside a surface, the stored normal pointing
    up. *)
Definition hit_inside : hit_record :=
  mk_hit_record (mk_vec3 0 0 0) (mk_vec3 0 1 0) 1 None false.

(** A camera of three by two pixels that takes no sample. *)
Definition camera_no_samples : camera := {|
  aspect_ratio := 1.0;
  image_width := 3;
  samples_per_pixel := 0;
  max_depth := 10;
  vfov := 90;
  lookfrom := mk_vec3 0 0 0;
  lookat := mk_vec3 0 1 0;
  vup := mk_vec3 0 0 1;
  defocus_angle := 0;
  focus_dist := 1;
  image_height := 2;
  center := mk_vec3 0 0 0;
  pixel00_loc := mk_vec3 0 1 0;
  pixel_delta_u := mk_vec3 2 0 0;
  pixel_delta_v := mk_vec3 0 0 (-2);
  defocus_disk_u := mk_vec3 0 0 0;
  defocus_disk_v := mk_vec3 0 0 0
|}.

(** The camera of main.cc as [main] configures it, before [render]
    initializes the private members (zero here). *)
Definition camera_main : camera := {|
  aspect_ratio := (16.0 / 9.0)%float;
  image_width := 1200;
  samples_per_pixel := 100;
  max_depth := 25;
  vfov := 20;
  lookfrom := mk_vec3 13 2 3;
  lookat := mk_vec3 0 0 0;
  vup := mk_vec3 0 1 0;
  defocus_angle := 1.0;
  focus_dist := 10.0;
  image_height := 0;
  center := mk_vec3 0 0 0;
  pixel00_loc := mk_vec3 0 0 0;
  pixel_delta_u := mk_vec3 0 0 0;
  pixel_delta_v := mk_vec3 0 0 0;
  defocus_disk_u := mk_vec3 0 0 0;
  defocus_disk_v := mk_vec3 0 0 0
|}.

(** The camera of main.cc at four by two pixels, one sample per pixel and
    no defocus. *)
Definition camera_small : camera := {|
  aspect_ratio := 2.0;
  image_width := 4;
  samples_per_pixel := 1;
  max_depth := 5;
  vfov := 20;
  lookfrom := mk_vec3 13 2 3;
  lookat := mk_vec3 0 0 0;
  vup := mk_vec3 0 1 0;
  defocus_angle := 0;
  focus_dist := 10.0;
  image_height := 0;
  center := mk_vec3 0 0 0;
  pixel00_loc := mk_vec3 0 0 0;
  pixel_delta_u := mk_vec3 0 0 0;
  pixel_delta_v := mk_vec3 0 0 0;
  defocus_disk_u := mk_vec3 0 0 0;
  defocus_disk_v := mk_vec3 0 0 0
|}.

(* ================================================================== *)
(** * The order and the negation of binary64 values                    *)
(* ================================================================== *)

Section SpecFloatFacts.

Lemma SFcompare_antisym (x y : spec_float) :
  SFcompare y x = option_map CompOpp (SFcompare x y).
Proof.
  destruct x as [sx|sx| |sx mx ex], y as [sy|sy| |sy my ey]; simpl; try reflexivity;
    try (destruct sx; reflexivity); try (destruct sy; reflexivity);
    try (destruct sx, sy; reflexivity).
  destruct sx, sy; simpl; try reflexivity;
    rewrite (Z.compare_antisym ey ex);
    destruct (ey ?= ex)%Z; simpl; try reflexivity;
    rewrite (Pos.compare_cont_antisym mx my Eq); reflexivity.
Qed.

Lemma SFcompare_refl (x : spec_float) :
  x <> S754_nan -> SFcompare x x = Some Eq.
Proof.
  destruct x as [s|s| |s m e]; simpl; intros H; try congruence.
  - destruct s; reflexivity.
  - destruct s; rewrite Z.compare_refl; fold (Pos.compare m m);
      rewrite Pos.compare_refl; reflexivity.
Qed.

Lemma SFcompare_lt_le_trans (x y z : spec_float) (c : comparison) :
  SFcompare x y = Some Lt -> SFcompare y z = Some c -> c <> Gt ->
  SFcompare x z = Some Lt.
Proof.
  destruct x as [sx|sx| |sx mx ex], y as [sy|sy| |sy my ey], z as [sz|sz| |sz mz ez];
    simpl; try discriminate;
    try (destruct sx; simpl; congruence);
    try (destruct sy; simpl; congruence);
    try (destruct sz; simpl; congruence);
    try (destruct sx, sy; simpl; congruence);
    try (destruct sx, sz; simpl; congruence);
    try (destruct sy, sz; simpl; congruence);
    try (destruct sx, sy, sz; simpl; congruence).
  fold (Pos.compare mx my) (Pos.compare my mz) (Pos.compare mx mz).
  destruct sx, sy, sz; simpl; try congruence;
    destruct (Z.compare_spec ex ey), (Z.compare_spec ey ez), (Z.compare_spec ex ez);
    try lia; try congruence; subst;
    destruct (Pos.compare_spec mx my), (Pos.compare_spec my mz),
      (Pos.compare_spec mx mz);
    simpl; intros; try lia; try congruence.
Qed.

Lemma SFcompare_defined (x y : spec_float) :
  x <> S754_nan -> y <> S754_nan -> exists c, SFcompare x y = Some c.
Proof.
  destruct x, y; simpl; intros; try congruence; eauto.
Qed.

Lemma SFcompare_some_l (x y : spec_float) (c : comparison) :
  SFcompare x y = Some c -> x <> S754_nan.
Proof. destruct x; simpl; congruence. Qed.

Lemma SFcompare_some_r (x y : spec_float) (c : comparison) :
  SFcompare x y = Some c -> y <> S754_nan.
Proof. destruct x, y; simpl; congruence. Qed.

Lemma binary_round_aux_opp (s : bool) (m e : Z) (l : location) :
  binary_round_aux prec emax (negb s) m e l
  = SFopp (binary_round_aux prec emax s m e l).
Proof.
  unfold binary_round_aux.
  destruct (shr_fexp prec emax m e l) as [mrs' e'].
  destruct (shr_fexp prec emax _ e' loc_Exact) as [mrs'' e''].
  destruct (shr_m mrs''); try reflexivity.
  destruct (e'' <=? emax - prec)%Z; reflexivity.
Qed.

Lemma SFmul_opp_r (x y : spec_float) :
  SFmul prec emax x (SFopp y) = SFopp (SFmul prec emax x y).
Proof.
  destruct x as [sx|sx| |sx mx ex], y as [sy|sy| |sy my ey]; simpl;
    try reflexivity; try (destruct sx, sy; reflexivity).
  replace (xorb sx (negb sy)) with (negb (xorb sx sy))
    by (destruct sx, sy; reflexivity).
  apply binary_round_aux_opp.
Qed.

Lemma binary_round_opp (s : bool) (m : positive) (e : Z) :
  binary_round prec emax (negb s) m e = SFopp (binary_round prec emax s m e).
Proof.
  unfold binary_round. destruct (shl_align _ _ _) as [mz ez].
  apply binary_round_aux_opp.
Qed.

Lemma binary_normalize_opp (m e : Z) :
  forget_zero_sign (binary_normalize prec emax (- m) e false)
  = forget_zero_sign (SFopp (binary_normalize prec emax m e false)).
Proof.
  destruct m as [|p|p]; simpl; try reflexivity.
  - rewrite (binary_round_opp false). reflexivity.
  - rewrite (binary_round_opp true).
    destruct (binary_round prec emax true p e) as [s|s| |s m' e']; simpl;
      rewrite ?negb_involutive; reflexivity.
Qed.

Lemma cond_Zopp_negb (s : bool) (m : Z) :
  cond_Zopp (negb s) m = (- cond_Zopp s m)%Z.
Proof. destruct s; simpl; lia. Qed.

Lemma SFadd_opp (x y : spec_float) :
  forget_zero_sign (SFadd prec emax (SFopp x) (SFopp y))
  = forget_zero_sign (SFopp (SFadd prec emax x y)).
Proof.
  destruct x as [sx|sx| |sx mx ex], y as [sy|sy| |sy my ey]; simpl;
    try reflexivity; try (destruct sx, sy; reflexivity).
  rewrite !cond_Zopp_negb, <- Z.opp_add_distr. apply binary_normalize_opp.
Qed.

Lemma SFadd_forget_zero_sign_l (x x' y : spec_float) :
  forget_zero_sign x = forget_zero_sign x' ->
  forget_zero_sign (SFadd prec emax x y) = forget_zero_sign (SFadd prec emax x' y).
Proof.
  destruct x as [sx|sx| |sx mx ex], x' as [sx'|sx'| |sx' mx' ex']; simpl; intros H;
    try discriminate; try (inversion H; subst; reflexivity).
  destruct y as [sy|sy| |sy my ey]; simpl; try reflexivity.
  destruct sx, sx', sy; reflexivity.
Qed.

Lemma SFcompare_forget_zero_sign_l (x y : spec_float) :
  SFcompare (forget_zero_sign x) y = SFcompare x y.
Proof. destruct x, y; reflexivity. Qed.

Lemma SFcompare_opp_zero (x : spec_float) (s : bool) :
  SFcompare (SFopp x) (S754_zero s)
  = option_map CompOpp (SFcompare x (S754_zero s)).
Proof.
  destruct x as [sx|sx| |sx mx ex]; simpl; try reflexivity; destruct sx; reflexivity.
Qed.

End SpecFloatFacts.

Section FloatOrder.
Local Open Scope float_scope.

Ltac to_spec :=
  intros;
  repeat match goal with
         | H : context [PrimFloat.ltb _ _] |- _ => rewrite FloatAxioms.ltb_spec in H
         | H : context [PrimFloat.leb _ _] |- _ => rewrite FloatAxioms.leb_spec in H
         | |- context [PrimFloat.ltb _ _] => rewrite FloatAxioms.ltb_spec
         | |- context [PrimFloat.leb _ _] => rewrite FloatAxioms.leb_spec
         end;
  unfold SFltb, SFleb in *.

Lemma float_ltb_trans (a b c : float) :
  (a <? b) = true -> (b <? c) = true -> (a <? c) = true.
Proof.
  intros Hab Hbc. to_spec.
  destruct (SFcompare (Prim2SF a) (Prim2SF b)) as [[]|] eqn:E1; try discriminate.
  destruct (SFcompare (Prim2SF b) (Prim2SF c)) as [[]|] eqn:E2; try discriminate.
  rewrite (SFcompare_lt_le_trans _ _ _ _ E1 E2); [reflexivity | discriminate].
Qed.

Lemma float_ltb_leb_trans (a b c : float) :
  (a <? b) = true -> (b <=? c) = true -> (a <=? c) = true.
Proof.
  intros Hab Hbc. to_spec.
  destruct (SFcompare (Prim2SF a) (Prim2SF b)) as [[]|] eqn:E1; try discriminate.
  destruct (SFcompare (Prim2SF b) (Prim2SF c)) as [[]|] eqn:E2; try discriminate;
    (rewrite (SFcompare_lt_le_trans _ _ _ _ E1 E2); [reflexivity | discriminate]).
Qed.

Lemma float_ltb_leb (a b : float) : (a <? b) = true -> (a <=? b) = true.
Proof.
  intros H. to_spec. destruct (SFcompare (Prim2SF a) (Prim2SF b)) as [[]|]; congruence.
Qed.

Lemma float_leb_refl (a c : float) : (a <? c) = true -> (a <=? a) = true.
Proof.
  intros H. to_spec.
  destruct (SFcompare (Prim2SF a) (Prim2SF c)) as [[]|] eqn:E1; try discriminate.
  rewrite SFcompare_refl; [reflexivity | exact (SFcompare_some_l _ _ _ E1)].
Qed.

Lemma float_nlt_leb (a b c d : float) :
  (a <? b) = false -> (a <? c) = true -> (b <? d) = true -> (b <=? a) = true.
Proof.
  intros Hab Hac Hbd. to_spec.
  destruct (SFcompare (Prim2SF a) (Prim2SF c)) as [[]|] eqn:E1; try discriminate.
  destruct (SFcompare (Prim2SF b) (Prim2SF d)) as [[]|] eqn:E2; try discriminate.
  destruct (SFcompare_defined _ _ (SFcompare_some_l _ _ _ E1) (SFcompare_some_l _ _ _ E2))
    as [k Hk].
  rewrite SFcompare_antisym, Hk. rewrite Hk in Hab.
  destruct k; simpl; congruence.
Qed.

Lemma float_leb_nlt (a b : float) : (a <=? b) = true -> (b <? a) = false.
Proof.
  intros H. to_spec. rewrite (SFcompare_antisym (Prim2SF a) (Prim2SF b)).
  destruct (SFcompare (Prim2SF a) (Prim2SF b)) as [[]|]; simpl; congruence.
Qed.

Lemma float_is_nan_spec (a : float) :
  is_nan a = match Prim2SF a with S754_nan => true | _ => false end.
Proof.
  unfold is_nan. rewrite FloatAxioms.eqb_spec. unfold SFeqb.
  destruct (Prim2SF a) as [s|s| |s m e] eqn:Ea; try reflexivity;
    rewrite SFcompare_refl by discriminate; reflexivity.
Qed.

End FloatOrder.

Section FloatOrderMore.
Local Open Scope float_scope.

Lemma SFcompare_le_trans (x y z : spec_float) (c1 c2 : comparison) :
  SFcompare x y = Some c1 -> SFcompare y z = Some c2 -> c1 <> Gt -> c2 <> Gt ->
  exists c3, SFcompare x z = Some c3 /\ c3 <> Gt.
Proof.
  intros H1 H2 N1 N2.
  destruct c1; [ | | congruence].
  - destruct (SFcompare_defined x z (SFcompare_some_l _ _ _ H1)
                (SFcompare_some_r _ _ _ H2)) as [c3 H3].
    exists c3. split; [exact H3 | ].
    intros ->.
    assert (Hzx : SFcompare z x = Some Lt)
      by (rewrite SFcompare_antisym, H3; reflexivity).
    pose proof (SFcompare_lt_le_trans z x y Eq Hzx H1 ltac:(discriminate)) as Hzy.
    rewrite SFcompare_antisym, Hzy in H2. simpl in H2. congruence.
  - exists Lt. split; [ | discriminate].
    exact (SFcompare_lt_le_trans x y z c2 H1 H2 N2).
Qed.

Lemma float_leb_trans (a b c : float) :
  (a <=? b) = true -> (b <=? c) = true -> (a <=? c) = true.
Proof.
  intros Hab Hbc.
  rewrite FloatAxioms.leb_spec in *. unfold SFleb in *.
  destruct (SFcompare (Prim2SF a) (Prim2SF b)) as [c1|] eqn:E1; [ | discriminate].
  destruct (SFcompare (Prim2SF b) (Prim2SF c)) as [c2|] eqn:E2; [ | destruct c1; discriminate].
  destruct (SFcompare_le_trans _ _ _ c1 c2 E1 E2) as [c3 [H3 N3]].
  - destruct c1; congruence.
  - destruct c2; destruct c1; congruence.
  - rewrite H3. destruct c3; congruence.
Qed.

Lemma float_leb_ltb_trans (a b c : float) :
  (a <=? b) = true -> (b <? c) = true -> (a <? c) = true.
Proof.
  intros Hab Hbc.
  rewrite FloatAxioms.leb_spec in Hab. rewrite FloatAxioms.ltb_spec in Hbc.
  rewrite FloatAxioms.ltb_spec. unfold SFleb, SFltb in *.
  destruct (SFcompare (Prim2SF a) (Prim2SF b)) as [c1|] eqn:E1; [ | discriminate].
  destruct (SFcompare (Prim2SF b) (Prim2SF c)) as [[]|] eqn:E2; try discriminate.
  destruct (SFcompare_defined _ _ (SFcompare_some_l _ _ _ E1)
              (SFcompare_some_r _ _ _ E2)) as [c3 E3].
  rewrite E3. destruct c3; [ | reflexivity | ]; exfalso.
  - assert (Hca : SFcompare (Prim2SF c) (Prim2SF a) = Some Eq)
      by (rewrite SFcompare_antisym, E3; reflexivity).
    pose proof (SFcompare_lt_le_trans _ _ _ Eq E2 Hca ltac:(discriminate)) as Hba.
    rewrite SFcompare_antisym, Hba in E1. simpl in E1.
    injection E1 as <-. discriminate Hab.
  - assert (Hca : SFcompare (Prim2SF c) (Prim2SF a) = Some Lt)
      by (rewrite SFcompare_antisym, E3; reflexivity).
    pose proof (SFcompare_lt_le_trans _ _ _ Lt E2 Hca ltac:(discriminate)) as Hba.
    rewrite SFcompare_antisym, Hba in E1. simpl in E1.
    injection E1 as <-. discriminate Hab.
Qed.

Lemma float_ltb_infinity (a b : float) :
  (a <? b) = true -> (a <? infinity) = true.
Proof.
  rewrite !FloatAxioms.ltb_spec. unfold SFltb.
  change (Prim2SF infinity) with (S754_infinity false).
  destruct (Prim2SF a) as [s|s| |s m e], (Prim2SF b) as [s'|s'| |s' m' e'];
    simpl; try congruence; destruct s; try congruence; destruct s'; congruence.
Qed.

End FloatOrderMore.

(* ================================================================== *)
(** * Products and sums that stay finite                               *)
(* ================================================================== *)

Section Rounding.
Local Open Scope Z_scope.

Lemma digits2_pos_size (p : positive) : digits2_pos p = Pos.size p.
Proof. induction p; simpl; congruence. Qed.

Lemma digits2_pos_gt (p : positive) : Zpos p < 2 ^ Zpos (digits2_pos p).
Proof.
  rewrite digits2_pos_size.
  pose proof (Pos.size_gt p) as H.
  rewrite <- Pos2Z.inj_pow. lia.
Qed.

Lemma digits2_pos_le (p : positive) : 2 ^ (Zpos (digits2_pos p) - 1) <= Zpos p.
Proof.
  rewrite digits2_pos_size.
  pose proof (Pos.size_le p) as H.
  assert (H2 : 2 ^ Zpos (Pos.size p) <= 2 * Zpos p).
  { rewrite <- Pos2Z.inj_pow. lia. }
  replace (Zpos (Pos.size p)) with (Z.succ (Zpos (Pos.size p) - 1)) in H2 by lia.
  rewrite Z.pow_succ_r in H2 by lia. lia.
Qed.

Lemma digits2_pos_bound (p : positive) (k : Z) :
  Zpos p < 2 ^ k -> Zpos (digits2_pos p) <= k.
Proof.
  intros H. pose proof (digits2_pos_le p) as Hle.
  destruct (Z_le_gt_dec (Zpos (digits2_pos p)) k) as [|Hgt]; [assumption | exfalso].
  assert (0 <= k \/ k < 0) as [Hk|Hk] by lia.
  - assert (2 ^ k <= 2 ^ (Zpos (digits2_pos p) - 1)) by (apply Z.pow_le_mono_r; lia).
    lia.
  - rewrite Z.pow_neg_r in H by lia. lia.
Qed.

(* shr_1 halves *)
Lemma shr_1_m (mrs : shr_record) : 0 <= shr_m mrs -> shr_m (shr_1 mrs) = shr_m mrs / 2.
Proof.
  destruct mrs as [m r s]. simpl. intros Hm.
  destruct m as [|p|p]; try lia; simpl.
  - reflexivity.
  - destruct p; simpl.
    + rewrite Pos2Z.inj_xI. apply Z.div_unique with (r := 1); lia.
    + rewrite Pos2Z.inj_xO. apply Z.div_unique with (r := 0); lia.
    + reflexivity.
Qed.

Lemma pow2_xO (p : positive) : 2 ^ Zpos p~0 = 2 ^ Zpos p * 2 ^ Zpos p.
Proof.
  replace (Zpos p~0) with (Zpos p + Zpos p) by lia.
  apply Z.pow_add_r; lia.
Qed.

Lemma pow2_xI (p : positive) : 2 ^ Zpos p~1 = 2 * (2 ^ Zpos p * 2 ^ Zpos p).
Proof.
  replace (Zpos p~1) with (Z.succ (Zpos p + Zpos p)) by lia.
  rewrite Z.pow_succ_r, Z.pow_add_r by lia. reflexivity.
Qed.

Lemma pow2_pos (k : Z) : 0 < 2 ^ k \/ k < 0.
Proof. destruct (Z_lt_le_dec k 0); [right; assumption | left; apply Z.pow_pos_nonneg; lia]. Qed.

Lemma iter_pos_shr_m (p : positive) (mrs : shr_record) :
  0 <= shr_m mrs ->
  shr_m (iter_pos shr_1 p mrs) = shr_m mrs / 2 ^ Zpos p.
Proof.
  assert (Hpow : forall q : positive, 0 < 2 ^ Zpos q) by (intros q; apply Z.pow_pos_nonneg; lia).
  revert mrs. induction p as [p IH|p IH|]; intros mrs Hm; cbn [iter_pos].
  - assert (H1 : 0 <= shr_m (shr_1 mrs))
      by (rewrite shr_1_m by assumption; apply Z.div_pos; lia).
    assert (H2 : 0 <= shr_m (iter_pos shr_1 p (shr_1 mrs)))
      by (rewrite IH by assumption; apply Z.div_pos; [lia | apply Hpow]).
    rewrite IH, IH, shr_1_m by assumption.
    pose proof (Hpow p).
    rewrite !Z.div_div by lia. rewrite pow2_xI. reflexivity.
  - assert (H2 : 0 <= shr_m (iter_pos shr_1 p mrs))
      by (rewrite IH by assumption; apply Z.div_pos; [lia | apply Hpow]).
    rewrite IH, IH by assumption.
    pose proof (Hpow p).
    rewrite !Z.div_div by lia. rewrite pow2_xO. reflexivity.
  - rewrite shr_1_m by assumption. rewrite Z.pow_1_r. reflexivity.
Qed.

Lemma shr_1_exact (k : Z) : 0 <= k ->
  shr_1 (Build_shr_record (2 * k) false false) = Build_shr_record k false false.
Proof.
  intros Hk. destruct k as [|p|p]; try lia; reflexivity.
Qed.

Lemma iter_pos_shr_exact (p : positive) (k : Z) : 0 <= k ->
  iter_pos shr_1 p (Build_shr_record (k * 2 ^ Zpos p) false false)
  = Build_shr_record k false false.
Proof.
  assert (Hpow : forall q : positive, 0 < 2 ^ Zpos q) by (intros q; apply Z.pow_pos_nonneg; lia).
  revert k. induction p as [p IH|p IH|]; intros k Hk; cbn [iter_pos].
  - pose proof (Hpow p).
    replace (k * 2 ^ Zpos p~1) with (2 * ((k * 2 ^ Zpos p) * 2 ^ Zpos p))
      by (rewrite pow2_xI; ring).
    rewrite shr_1_exact by nia.
    rewrite IH by nia. apply IH; assumption.
  - pose proof (Hpow p).
    replace (k * 2 ^ Zpos p~0) with ((k * 2 ^ Zpos p) * 2 ^ Zpos p)
      by (rewrite pow2_xO; ring).
    rewrite IH by nia. apply IH; assumption.
  - rewrite Z.pow_1_r. replace (k * 2) with (2 * k) by lia. apply shr_1_exact; assumption.
Qed.

Lemma round_nearest_even_bounds (m : Z) (l : location) :
  m <= round_nearest_even m l <= m + 1.
Proof. destruct l as [|[]]; simpl; try lia. destruct (Z.even m); lia. Qed.

Lemma Zdigits2_bound (m k : Z) : 0 <= m -> 0 <= k -> m < 2 ^ k -> Zdigits2 m <= k.
Proof.
  intros Hm Hk H. destruct m as [|p|p]; simpl; try lia.
  apply digits2_pos_bound; assumption.
Qed.

Lemma binary_round_aux_bounded (s : bool) (m : positive) (e B E : Z) :
  0 < B < 2 ^ 53 -> -1074 <= E <= 971 -> e <= E ->
  Zpos m <= B * 2 ^ (E - e) ->
  SF_is_finite (binary_round_aux prec emax s (Zpos m) e loc_Exact) = true.
Proof.
  intros HB HE He Hm.
  assert (Hpow : forall k, 0 <= k -> 0 < 2 ^ k) by (intros; apply Z.pow_pos_nonneg; lia).
  pose proof (digits2_pos_gt m) as Hd_gt.
  pose proof (digits2_pos_le m) as Hd_le.
  set (d := Zpos (digits2_pos m)) in *.
  assert (Hde : d + e - 53 <= E).
  { assert (Zpos m < 2 ^ (53 + (E - e))).
    { rewrite Z.pow_add_r by lia. pose proof (Hpow (E - e) ltac:(lia)). nia. }
    pose proof (digits2_pos_bound m (53 + (E - e)) H). fold d in H0. lia. }
  unfold binary_round_aux, shr_fexp.
  change (Zdigits2 (Zpos m)) with d.
  unfold fexp, SpecFloat.emin, prec, emax.
  change (3 - 1024 - 53) with (-1074).
  set (e1 := Z.max (d + e - 53) (-1074)).
  assert (He1 : e1 <= E) by (unfold e1; lia).
  unfold shr at 1. cbn [shr_record_of_loc].
  destruct (e1 - e) as [|p|p] eqn:Hn1.
  - (* no shift *)
    cbn [shr_m loc_of_shr_record round_nearest_even].
    change (Zdigits2 (Zpos m)) with d. fold e1. rewrite Hn1.
    cbn [shr shr_record_of_loc shr_m].
    replace (e <=? 1024 - 53) with true by (symmetry; apply Z.leb_le; lia).
    reflexivity.
  - (* shift by p *)
    set (mrs1 := iter_pos shr_1 p _).
    assert (Hm1 : shr_m mrs1 = Zpos m / 2 ^ Zpos p)
      by (unfold mrs1; rewrite iter_pos_shr_m; [reflexivity | simpl; lia]).
    pose proof (Hpow (Zpos p) ltac:(lia)) as Hpp.
    assert (Hm1_nonneg : 0 <= shr_m mrs1) by (rewrite Hm1; apply Z.div_pos; lia).
    assert (Hm1_lt : shr_m mrs1 < 2 ^ 53).
    { rewrite Hm1. apply Z.div_lt_upper_bound; [lia | ].
      rewrite <- Z.pow_add_r by lia.
      assert (2 ^ d <= 2 ^ (Zpos p + 53)) by (apply Z.pow_le_mono_r; unfold e1 in Hn1; lia).
      lia. }
    pose proof (round_nearest_even_bounds (shr_m mrs1) (loc_of_shr_record mrs1)) as Hr.
    set (m2 := round_nearest_even (shr_m mrs1) (loc_of_shr_record mrs1)) in *.
    assert (Hm2_E : e + Zpos p = E -> m2 < 2 ^ 53).
    { intros HeqE.
      destruct (Z.eq_dec (Zpos m) (B * 2 ^ Zpos p)) as [Heq|Hne].
      - assert (Hex : mrs1 = Build_shr_record B false false).
        { unfold mrs1. rewrite Heq. apply iter_pos_shr_exact. lia. }
        unfold m2. rewrite Hex. simpl. lia.
      - replace (E - e) with (Zpos p) in Hm by lia.
        assert (shr_m mrs1 < B).
        { rewrite Hm1. apply Z.div_lt_upper_bound; lia. }
        lia. }
    unfold shr. cbn [shr_record_of_loc].
    set (e2 := Z.max (Zdigits2 m2 + (e + Zpos p) - 53) (-1074)).
    assert (He' : e + Zpos p = e1) by lia.
    destruct (e2 - (e + Zpos p)) as [|q|q] eqn:Hn2.
    + cbn [shr_m]. destruct m2 as [|m2p|m2p]; try reflexivity; [ | lia].
      replace (e + Zpos p <=? 1024 - 53) with true by (symmetry; apply Z.leb_le; lia).
      reflexivity.
    + assert (Hm2d : Zdigits2 m2 <= 54).
      { apply Zdigits2_bound; lia. }
      assert (e + Zpos p <> E).
      { intros HeqE. specialize (Hm2_E HeqE).
        assert (Zdigits2 m2 <= 53) by (apply Zdigits2_bound; lia).
        unfold e2 in Hn2. lia. }
      set (mrs2 := iter_pos shr_1 q _).
      assert (Hm3 : 0 <= shr_m mrs2).
      { unfold mrs2. rewrite iter_pos_shr_m by (simpl; lia).
        apply Z.div_pos; [simpl; lia | apply Hpow; lia]. }
      destruct (shr_m mrs2) as [|r|r]; try reflexivity; [ | lia].
      replace (e + Zpos p + Zpos q <=? 1024 - 53) with true; [reflexivity | ].
      symmetry. apply Z.leb_le. unfold e2 in Hn2. lia.
    + cbn [shr_m]. destruct m2 as [|m2p|m2p]; try reflexivity; [ | lia].
      replace (e + Zpos p <=? 1024 - 53) with true by (symmetry; apply Z.leb_le; lia).
      reflexivity.
  - (* negative: no shift *)
    cbn [shr_m loc_of_shr_record round_nearest_even].
    change (Zdigits2 (Zpos m)) with d. fold e1. rewrite Hn1.
    cbn [shr shr_record_of_loc shr_m].
    replace (e <=? 1024 - 53) with true by (symmetry; apply Z.leb_le; lia).
    reflexivity.
Qed.

Lemma binary_round_aux_not_nan (s : bool) (m : positive) (e : Z) :
  binary_round_aux prec emax s (Zpos m) e loc_Exact <> S754_nan.
Proof.
  assert (Hpow : forall k, 0 <= k -> 0 < 2 ^ k) by (intros; apply Z.pow_pos_nonneg; lia).
  assert (Hshr : forall (m0 e0 n0 : Z), 0 <= m0 ->
            0 <= shr_m (fst (shr (Build_shr_record m0 false false) e0 n0))).
  { intros m0 e0 n0 H0. unfold shr. destruct n0 as [|q|q]; simpl fst; try (simpl; lia).
    rewrite iter_pos_shr_m by (simpl; lia).
    apply Z.div_pos; [simpl; lia | apply Hpow; lia]. }
  unfold binary_round_aux, shr_fexp. cbn [shr_record_of_loc].
  set (n1 := fexp prec emax (Zdigits2 (Zpos m) + e) - e).
  pose proof (Hshr (Zpos m) e n1 ltac:(lia)) as H1.
  destruct (shr (Build_shr_record (Zpos m) false false) e n1) as [mrs1 e1].
  simpl fst in H1.
  pose proof (round_nearest_even_bounds (shr_m mrs1) (loc_of_shr_record mrs1)) as Hr.
  set (m2 := round_nearest_even (shr_m mrs1) (loc_of_shr_record mrs1)) in *.
  set (n2 := fexp prec emax (Zdigits2 m2 + e1) - e1).
  pose proof (Hshr m2 e1 n2 ltac:(lia)) as H2.
  destruct (shr (Build_shr_record m2 false false) e1 n2) as [mrs2 e2].
  simpl fst in H2.
  destruct (shr_m mrs2) as [|r|r]; try discriminate; [ | lia].
  destruct (e2 <=? emax - prec); discriminate.
Qed.

Lemma bounded_spec (m : positive) (e : Z) :
  bounded prec emax m e = true ->
  Zpos m < 2 ^ 53 /\ -1074 <= e <= 971.
Proof.
  unfold bounded, canonical_mantissa, fexp, SpecFloat.emin, prec, emax.
  change (3 - 1024 - 53) with (-1074). change (1024 - 53) with 971.
  intros H. apply andb_true_iff in H. destruct H as [H1 H2].
  apply Z.eqb_eq in H1. apply Z.leb_le in H2.
  pose proof (digits2_pos_gt m) as Hd.
  assert (Zpos (digits2_pos m) <= 53) by lia.
  assert (2 ^ Zpos (digits2_pos m) <= 2 ^ 53) by (apply Z.pow_le_mono_r; lia).
  lia.
Qed.

Lemma SFmul_bounded (x y : spec_float) :
  valid_binary x = true -> valid_binary y = true ->
  SF_is_finite x = true ->
  SFleb (SFabs y) (S754_finite false 4503599627370496 (-52)) = true ->
  SF_is_finite (SFmul prec emax x y) = true.
Proof.
  intros Vx Vy Fx Hy.
  destruct x as [sx|sx| |sx mx ex]; try discriminate Fx;
    destruct y as [sy|sy| |sy my ey]; try discriminate Hy;
    try (cbn [SFmul SF_is_finite]; reflexivity).
  cbn [SFmul]. cbn [valid_binary] in Vx, Vy.
  destruct (bounded_spec mx ex Vx) as [Hmx Hex].
  destruct (bounded_spec my ey Vy) as [Hmy Hey].
  unfold SFleb in Hy. cbn [SFabs SFcompare] in Hy.
  assert (Hbound : ey <= 0 /\ Zpos my <= 2 ^ (- ey)).
  { destruct (Z.compare_spec ey (-52)) as [Heq|Hlt|Hgt]; try discriminate Hy.
    - subst ey. split; [lia | ].
      rewrite Pos.compare_cont_spec in Hy.
      change (2 ^ (- -52)) with (Zpos 4503599627370496).
      destruct (Pos.compare_spec my 4503599627370496) as [H|H|H];
        try discriminate Hy.
      + rewrite H. apply Z.le_refl.
      + apply Z.lt_le_incl. exact H.
    - split; [lia | ].
      assert (2 ^ 53 <= 2 ^ (- ey)) by (apply Z.pow_le_mono_r; lia). lia. }
  destruct Hbound as [Hey0 Hmy'].
  apply (binary_round_aux_bounded _ _ _ (Zpos mx) ex); try lia.
  replace (ex - (ex + ey)) with (- ey) by lia.
  rewrite Pos2Z.inj_mul. apply Z.mul_le_mono_nonneg_l; lia.
Qed.

Lemma SFadd_finite_not_nan (x y : spec_float) :
  x <> S754_nan -> SF_is_finite y = true -> SFadd prec emax x y <> S754_nan.
Proof.
  intros Hx Hy.
  destruct x as [sx|sx| |sx mx ex]; try congruence;
    destruct y as [sy|sy| |sy my ey]; try discriminate; cbn [SFadd];
    try discriminate; try (destruct sx, sy; discriminate).
  unfold binary_normalize.
  destruct (_ + _) as [|p|p]; try discriminate;
    unfold binary_round; destruct (shl_align _ _ _) as [mz ez];
    apply binary_round_aux_not_nan.
Qed.

(** Adding a value below [1e-8] to one of magnitude at least one half
    gives a value of magnitude at least [2 ^ -54]: the small summand can
    cancel at most half of the large one. *)

Lemma pos_iter_xO (m d : positive) : Zpos (Pos.iter xO m d) = Zpos m * 2 ^ Zpos d.
Proof.
  induction d as [|d IH] using Pos.peano_ind.
  - simpl. lia.
  - rewrite Pos.iter_succ, Pos2Z.inj_xO, IH, Pos2Z.inj_succ, Z.pow_succ_r by lia. ring.
Qed.

Lemma round_nearest_even_pos (m : Z) (l : location) :
  0 < m -> exists p, round_nearest_even m l = Zpos p /\ m <= Zpos p.
Proof.
  intros Hm. pose proof (round_nearest_even_bounds m l) as [H1 H2].
  destruct (round_nearest_even m l) as [|p|p]; try lia. exists p. split; [reflexivity | lia].
Qed.

Lemma binary_round_aux_large (s : bool) (p : positive) (e : Z) :
  e < -54 -> -1 <= Zpos (digits2_pos p) + e ->
  SF_large (binary_round_aux prec emax s (Zpos p) e loc_Exact) = true.
Proof.
  intros He Hd.
  assert (Hpow : forall k, 0 <= k -> 0 < 2 ^ k) by (intros; apply Z.pow_pos_nonneg; lia).
  pose proof (digits2_pos_le p) as Hp.
  set (d := Zpos (digits2_pos p)) in *.
  unfold binary_round_aux, shr_fexp.
  change (Zdigits2 (Zpos p)) with d.
  unfold fexp, SpecFloat.emin, prec, emax. change (3 - 1024 - 53) with (-1074).
  replace (Z.max (d + e - 53) (-1074)) with (d + e - 53) by lia.
  unfold shr at 1. cbn [shr_record_of_loc].
  destruct (d + e - 53 - e) as [|q|q] eqn:Hq; try lia.
  assert (Hqd : Zpos q = d - 53) by lia.
  set (mrs1 := iter_pos shr_1 q _).
  assert (Hm1 : shr_m mrs1 = Zpos p / 2 ^ Zpos q)
    by (unfold mrs1; rewrite iter_pos_shr_m; [reflexivity | simpl; lia]).
  pose proof (Hpow (Zpos q) ltac:(lia)) as Hpq.
  assert (Hm1_lb : 2 ^ 52 <= shr_m mrs1).
  { rewrite Hm1. apply Z.div_le_lower_bound; [lia | ].
    rewrite <- Z.pow_add_r by lia.
    replace (Zpos q + 52) with (d - 1) by lia. exact Hp. }
  destruct (round_nearest_even_pos (shr_m mrs1) (loc_of_shr_record mrs1) ltac:(lia))
    as [m2 [Hm2 Hm2_lb]].
  rewrite Hm2.
  pose proof (digits2_pos_le m2) as Hm2d.
  pose proof (digits2_pos_gt m2) as Hm2d'.
  cbn [Zdigits2].
  set (d2 := Zpos (digits2_pos m2)) in *.
  assert (Hd2 : 53 <= d2).
  { destruct (Z_lt_le_dec d2 53) as [Hlt|]; [exfalso | assumption].
    assert (2 ^ d2 <= 2 ^ 52) by (apply Z.pow_le_mono_r; lia). lia. }
  replace (Z.max (d2 + (e + Zpos q) - 53) (-1074)) with (d2 + (e + Zpos q) - 53) by lia.
  unfold shr. cbn [shr_record_of_loc].
  destruct (d2 + (e + Zpos q) - 53 - (e + Zpos q)) as [|q2|q2] eqn:Hq2; try lia.
  - cbn [shr_m]. destruct (e + Zpos q <=? 1024 - 53); [ | reflexivity].
    cbn [SF_large]. apply Z.leb_le. lia.
  - set (mrs2 := iter_pos shr_1 q2 _).
    assert (Hm3 : shr_m mrs2 = Zpos m2 / 2 ^ Zpos q2)
      by (unfold mrs2; rewrite iter_pos_shr_m; [reflexivity | simpl; lia]).
    pose proof (Hpow (Zpos q2) ltac:(lia)) as Hpq2.
    assert (Hm3_lb : 2 ^ 52 <= shr_m mrs2).
    { rewrite Hm3. apply Z.div_le_lower_bound; [lia | ].
      rewrite <- Z.pow_add_r by lia.
      replace (Zpos q2 + 52) with (d2 - 1) by lia. exact Hm2d. }
    destruct (shr_m mrs2) as [|m3|m3]; try lia.
    destruct (e + Zpos q + Zpos q2 <=? 1024 - 53); [ | reflexivity].
    cbn [SF_large]. apply Z.leb_le. lia.
Qed.

Lemma bounded_canonical (m : positive) (e : Z) :
  bounded prec emax m e = true ->
  e = Z.max (Zpos (digits2_pos m) + e - 53) (-1074).
Proof.
  unfold bounded, canonical_mantissa, fexp, SpecFloat.emin, prec, emax.
  change (3 - 1024 - 53) with (-1074).
  intros H. apply andb_true_iff in H. destruct H as [H1 _].
  apply Z.eqb_eq in H1. lia.
Qed.

Lemma SF_large_not_small (x : spec_float) :
  SF_large x = true ->
  SFltb (SFabs x) (S754_finite false 6044629098073146 (-79)) = false.
Proof.
  destruct x as [s|s| |s m e]; simpl; try discriminate; intros H.
  - reflexivity.
  - apply Z.leb_le in H. unfold SFltb. cbn [SFcompare].
    destruct (Z.compare_spec e (-79)); try lia; reflexivity.
Qed.

Lemma SFadd_small_large (x y : spec_float) :
  valid_binary x = true -> valid_binary y = true ->
  SFltb (SFabs x) (S754_finite false 6044629098073146 (-79)) = true ->
  SFleb (S754_finite false 4503599627370496 (-53)) (SFabs y) = true ->
  SF_large (SFadd prec emax x y) = true.
Proof.
  intros Vx Vy Hx Hy.
  assert (Hpow : forall k, 0 <= k -> 0 < 2 ^ k) by (intros; apply Z.pow_pos_nonneg; lia).
  destruct y as [sy|sy| |sy my ey]; try discriminate Hy.
  - (* y infinite *)
    destruct x as [sx|sx| |sx mx ex]; try discriminate Hx; reflexivity.
  - (* y finite, at least one half *)
    cbn [valid_binary] in Vy.
    pose proof (bounded_canonical my ey Vy) as Cy.
    pose proof (digits2_pos_le my) as Hmy.
    unfold SFleb in Hy. cbn [SFabs SFcompare] in Hy.
    assert (Hey : -53 <= ey).
    { destruct (Z.compare_spec (-53) ey); try discriminate Hy; lia. }
    assert (Hmy52 : 2 ^ 52 <= Zpos my).
    { destruct (Z.compare_spec (-53) ey) as [Heq|Hlt|Hgt]; try discriminate Hy.
      - rewrite Pos.compare_cont_spec in Hy.
        destruct (Pos.compare_spec 4503599627370496 my) as [H|H|H];
          try discriminate Hy.
        + rewrite <- H. apply Z.le_refl.
        + apply Z.lt_le_incl. exact H.
      - assert (Zpos (digits2_pos my) = 53) by lia.
        replace (Zpos (digits2_pos my) - 1) with 52 in Hmy by lia. exact Hmy. }
    destruct x as [sx|sx| |sx mx ex]; try discriminate Hx.
    + (* x zero *) cbn [SFadd SF_large]. apply Z.leb_le. lia.
    + (* x finite, small *)
      cbn [valid_binary] in Vx.
      destruct (bounded_spec mx ex Vx) as [Hmx Hex].
      unfold SFltb in Hx. cbn [SFabs SFcompare] in Hx.
      assert (Hex79 : ex <= -79).
      { destruct (Z.compare_spec ex (-79)); try discriminate Hx; lia. }
      cbn [SFadd].
      replace (Z.min ex ey) with ex by lia.
      unfold shl_align at 1. replace (ex - ex) with 0 by lia. cbn [fst].
      unfold shl_align. 
      destruct (ex - ey) as [|dd|dd] eqn:Hdd; try lia. cbn [fst].
      rewrite pos_iter_xO.
      assert (Hd : Zpos dd = ey - ex) by lia.
      pose proof (Hpow (Zpos dd) ltac:(lia)) as Hpd.
      set (Y := Zpos my * 2 ^ Zpos dd).
      assert (HY : 2 ^ 52 * 2 ^ Zpos dd <= Y)
        by (unfold Y; apply Z.mul_le_mono_nonneg_r; lia).
      clearbody Y.
      assert (Hdd26 : 2 ^ 26 <= 2 ^ Zpos dd) by (apply Z.pow_le_mono_r; lia).
      assert (Hsmall : 2 * Zpos mx <= 2 ^ 52 * 2 ^ Zpos dd).
      { assert (2 ^ 52 * 2 ^ 26 <= 2 ^ 52 * 2 ^ Zpos dd)
          by (apply Z.mul_le_mono_nonneg_l; lia).
        lia. }
      (* the sum has magnitude at least half of Y *)
      assert (Hsum : forall S : Z,
                 S = cond_Zopp sx (Zpos mx) + cond_Zopp sy Y ->
                 exists p, (S = Zpos p \/ S = Zneg p) /\ 2 ^ 51 * 2 ^ Zpos dd <= Zpos p).
      { intros S HS.
        assert (2 ^ 52 * 2 ^ Zpos dd = 2 * (2 ^ 51 * 2 ^ Zpos dd)) by (change (2 ^ 52) with (2 * 2 ^ 51); ring).
        destruct sx, sy; cbn [cond_Zopp] in HS;
          (destruct S as [|p|p]; [lia | exists p; split; [auto | lia] ..]). }
      destruct (Hsum _ eq_refl) as [p [Hp Hp_lb]].
      assert (Hdig : -1 <= Zpos (digits2_pos p) + ex).
      { pose proof (digits2_pos_gt p) as Hgt.
        destruct (Z_lt_le_dec (Zpos (digits2_pos p) + ex) (-1)) as [Hlt|]; [exfalso | assumption].
        assert (2 ^ Zpos (digits2_pos p) <= 2 ^ (51 + Zpos dd))
          by (apply Z.pow_le_mono_r; lia).
        rewrite Z.pow_add_r in H by lia. lia. }
      assert (Hround : forall s, SF_large (binary_round prec emax s p ex) = true).
      { intros s. unfold binary_round.
        unfold shl_align, fexp, SpecFloat.emin, prec, emax.
        change (3 - 1024 - 53) with (-1074).
        destruct (Z.max (Zpos (digits2_pos p) + ex - 53) (-1074) - ex) as [|k|k] eqn:Hk;
          try lia; apply binary_round_aux_large; lia. }
      unfold binary_normalize.
      destruct Hp as [-> | ->]; apply Hround.
Qed.

End Rounding.

Section FiniteProducts.
Local Open Scope float_scope.

Lemma Prim2SF_infinity : Prim2SF infinity = S754_infinity false.
Proof. vm_compute. reflexivity. Qed.

Lemma Prim2SF_one : Prim2SF 1 = S754_finite false 4503599627370496 (-52).
Proof. vm_compute. reflexivity. Qed.

Lemma abs_ltb_infinity_finite (x : float) :
  (abs x <? infinity) = true -> SF_is_finite (Prim2SF x) = true.
Proof.
  rewrite FloatAxioms.ltb_spec, FloatAxioms.abs_spec, Prim2SF_infinity. unfold SFltb.
  destruct (Prim2SF x) as [s|s| |s m e]; simpl; congruence.
Qed.

Lemma abs_leb_one_spec (x : float) :
  (abs x <=? 1) = true ->
  SFleb (SFabs (Prim2SF x)) (S754_finite false 4503599627370496 (-52)) = true.
Proof.
  rewrite FloatAxioms.leb_spec, FloatAxioms.abs_spec, Prim2SF_one. intros H; exact H.
Qed.

Lemma mul_finite (x y : float) :
  (abs x <? infinity) = true -> (abs y <=? 1) = true ->
  SF_is_finite (Prim2SF (x * y)) = true.
Proof.
  intros Hx Hy. rewrite FloatAxioms.mul_spec.
  apply SFmul_bounded.
  - apply Prim2SF_valid.
  - apply Prim2SF_valid.
  - apply abs_ltb_infinity_finite; assumption.
  - apply abs_leb_one_spec; assumption.
Qed.

Lemma SF_is_finite_not_nan (x : spec_float) : SF_is_finite x = true -> x <> S754_nan.
Proof. destruct x; simpl; congruence. Qed.

Lemma add_small_large (a b : float) :
  (abs a <? 1e-8) = true -> (0.5 <=? abs b) = true ->
  (abs (a + b) <? 1e-8) = false.
Proof.
  rewrite !FloatAxioms.ltb_spec, FloatAxioms.leb_spec, !FloatAxioms.abs_spec,
    FloatAxioms.add_spec.
  change (Prim2SF 1e-8) with (S754_finite false 6044629098073146 (-79)).
  change (Prim2SF 0.5) with (S754_finite false 4503599627370496 (-53)).
  intros Ha Hb. apply SF_large_not_small.
  apply SFadd_small_large; try apply Prim2SF_valid; assumption.
Qed.

End FiniteProducts.

(* ================================================================== *)
(** * The hittable collection                                          *)
(* ================================================================== *)

Section HittableList.
Context {E : externals}.
Local Open Scope float_scope.

Lemma hit_loop_after_hit (objects : list hittable) (r : ray) (ray_t : interval)
    (temp_rec : hit_record) (closest_so_far : float) (rec : hit_record) :
  fst (hit_loop objects r ray_t temp_rec true closest_so_far rec) = true.
Proof.
  revert temp_rec closest_so_far rec.
  induction objects as [|object rest IH]; intros temp_rec closest rec; simpl.
  - reflexivity.
  - destruct (object r _ temp_rec) as [[] temp_rec']; apply IH.
Qed.

Lemma hit_loop_miss (objects : list hittable) (r : ray) (ray_t : interval)
    (temp_rec : hit_record) (closest_so_far : float) (rec : hit_record) :
  fst (hit_loop objects r ray_t temp_rec false closest_so_far rec) = false ->
  snd (hit_loop objects r ray_t temp_rec false closest_so_far rec) = rec.
Proof.
  revert temp_rec.
  induction objects as [|object rest IH]; intros temp_rec; simpl.
  - reflexivity.
  - destruct (object r _ temp_rec) as [[] temp_rec'].
    + rewrite hit_loop_after_hit. discriminate.
    + apply IH.
Qed.

(** C10.  When [hittable_list::hit] returns [false], the record of the
    caller is as it was before the call: [rec] is assigned only after a
    member has reported a hit, and then the call returns [true]. *)
Theorem hittable_list_hit_miss_keeps_record (l : hittable_list) (r : ray)
    (ray_t : interval) (rec : hit_record) :
  fst (hittable_list_hit l r ray_t rec) = false ->
  snd (hittable_list_hit l r ray_t rec) = rec.
Proof.
  unfold hittable_list_hit. apply hit_loop_miss.
Qed.

Lemma individual_hits_cons (object : hittable) (rest : list hittable) (r : ray)
    (ray_t : interval) (rec0 : hit_record) :
  individual_hits (object :: rest) r ray_t rec0
  = match individual_hit object r ray_t rec0 with
    | Some h => h :: individual_hits rest r ray_t rec0
    | None => individual_hits rest r ray_t rec0
    end.
Proof.
  unfold individual_hits. simpl.
  destruct (individual_hit object r ray_t rec0); reflexivity.
Qed.

(** What the protocol says of a member tested on its own. *)
Lemma individual_hit_reports (object : hittable) (r : ray) (ray_t : interval)
    (rec0 : hit_record) (nearest : option hit_record) :
  reports_nearest object r (interval_min ray_t) nearest ->
  individual_hit object r ray_t rec0
  = match nearest with
    | Some h => if t h <? interval_max ray_t then Some h else None
    | None => None
    end.
Proof.
  intros H. specialize (H (interval_max ray_t) rec0).
  unfold individual_hit. destruct ray_t as [t_min t_max]; simpl in *.
  destruct nearest as [h|].
  - destruct (t h <? t_max).
    + rewrite H. reflexivity.
    + destruct (object r _ rec0) as [found h']. simpl in H. subst found. reflexivity.
  - destruct (object r _ rec0) as [found h']. simpl in H. subst found. reflexivity.
Qed.

Lemma fold_nearer_some (hits : list hit_record) (b : hit_record) :
  fold_left nearer hits (Some b) = Some (nearest_from b hits).
Proof.
  revert b. induction hits as [|h hits IH]; intros b; simpl.
  - reflexivity.
  - unfold nearest_from. simpl. destruct (t h <? t b); apply IH.
Qed.

(** The loop from a state in which [b] is the nearest hit so far. *)
Lemma hit_loop_from_best (objects : list hittable) (r : ray) (ray_t : interval)
    (rec0 : hit_record) :
  (forall object, In object objects ->
     honours_interval object r (interval_min ray_t)) ->
  forall (temp_rec b : hit_record),
    (t b <? interval_max ray_t) = true ->
    hit_loop objects r ray_t temp_rec true (t b) b
    = (true, nearest_from b (individual_hits objects r ray_t rec0)).
Proof.
  induction objects as [|object rest IH]; intros Hall temp_rec b Hb.
  - reflexivity.
  - destruct (Hall object (or_introl eq_refl)) as [nearest Hn].
    assert (Hrest : forall o, In o rest -> honours_interval o r (interval_min ray_t))
      by (intros o Ho; apply Hall; right; exact Ho).
    rewrite individual_hits_cons, (individual_hit_reports _ _ _ rec0 _ Hn).
    simpl hit_loop. specialize (Hn (t b) temp_rec).
    destruct nearest as [h|].
    + destruct (t h <? t b) eqn:Hlt.
      * rewrite Hn, (float_ltb_trans _ _ _ Hlt Hb). cbn iota beta.
        unfold nearest_from. simpl fold_left. rewrite Hlt.
        apply IH; [exact Hrest | exact (float_ltb_trans _ _ _ Hlt Hb)].
      * destruct (object r _ temp_rec) as [found temp_rec']. simpl in Hn. subst found.
        destruct (t h <? interval_max ray_t); unfold nearest_from; simpl fold_left;
          rewrite ?Hlt; apply IH; assumption.
    + destruct (object r _ temp_rec) as [found temp_rec']. simpl in Hn. subst found.
      apply IH; assumption.
Qed.

(** The loop from its initial state. *)
Lemma hit_loop_from_start (objects : list hittable) (r : ray) (ray_t : interval)
    (rec0 : hit_record) :
  (forall object, In object objects ->
     honours_interval object r (interval_min ray_t)) ->
  forall (temp_rec rec : hit_record),
    hit_loop objects r ray_t temp_rec false (interval_max ray_t) rec
    = match minimum_t_hit (individual_hits objects r ray_t rec0) with
      | Some h => (true, h)
      | None => (false, rec)
      end.
Proof.
  unfold minimum_t_hit.
  induction objects as [|object rest IH]; intros Hall temp_rec rec.
  - reflexivity.
  - destruct (Hall object (or_introl eq_refl)) as [nearest Hn].
    assert (Hrest : forall o, In o rest -> honours_interval o r (interval_min ray_t))
      by (intros o Ho; apply Hall; right; exact Ho).
    rewrite individual_hits_cons, (individual_hit_reports _ _ _ rec0 _ Hn).
    simpl hit_loop. specialize (Hn (interval_max ray_t) temp_rec).
    destruct nearest as [h|].
    + destruct (t h <? interval_max ray_t) eqn:Hlt.
      * rewrite Hn. cbn iota beta. simpl fold_left.
        rewrite fold_nearer_some.
        apply (hit_loop_from_best rest r ray_t rec0 Hrest h h Hlt).
      * destruct (object r _ temp_rec) as [found temp_rec']. simpl in Hn. subst found.
        apply IH; assumption.
    + destruct (object r _ temp_rec) as [found temp_rec']. simpl in Hn. subst found.
      apply IH; assumption.
Qed.

Lemma individual_hits_below (objects : list hittable) (r : ray) (ray_t : interval)
    (rec0 : hit_record) :
  (forall object, In object objects ->
     honours_interval object r (interval_min ray_t)) ->
  forall h, In h (individual_hits objects r ray_t rec0) ->
    (t h <? interval_max ray_t) = true.
Proof.
  induction objects as [|object rest IH]; intros Hall h Hin.
  - destruct Hin.
  - destruct (Hall object (or_introl eq_refl)) as [nearest Hn].
    assert (Hrest : forall o, In o rest -> honours_interval o r (interval_min ray_t))
      by (intros o Ho; apply Hall; right; exact Ho).
    rewrite individual_hits_cons, (individual_hit_reports _ _ _ rec0 _ Hn) in Hin.
    destruct nearest as [h'|]; [ | exact (IH Hrest h Hin)].
    destruct (t h' <? interval_max ray_t) eqn:Hlt; [ | exact (IH Hrest h Hin)].
    destruct Hin as [<- | Hin]; [exact Hlt | exact (IH Hrest h Hin)].
Qed.

(** The fold of [nearer] ends on a hit that is no farther than the hit it
    started from and than every hit it went through, when each of them
    lies below a common bound (so that none is NaN). *)
Lemma nearest_from_le (t_max : float) (hits : list hit_record) :
  (forall h, In h hits -> (t h <? t_max) = true) ->
  forall b, (t b <? t_max) = true ->
    (t (nearest_from b hits) <=? t b) = true
    /\ forall h, In h hits -> (t (nearest_from b hits) <=? t h) = true.
Proof.
  induction hits as [|h hits IH]; intros Hall b Hb.
  - split; [exact (float_leb_refl _ _ Hb) | intros h []].
  - assert (Hh : (t h <? t_max) = true) by (apply Hall; left; reflexivity).
    assert (Hrest : forall h', In h' hits -> (t h' <? t_max) = true)
      by (intros h' Hin; apply Hall; right; exact Hin).
    unfold nearest_from. simpl fold_left.
    destruct (t h <? t b) eqn:Hlt.
    + destruct (IH Hrest h Hh) as [Hm Hm'].
      split.
      * exact (float_leb_trans _ _ _ Hm (float_ltb_leb _ _ Hlt)).
      * intros h' [<- | Hin]; [exact Hm | exact (Hm' h' Hin)].
    + destruct (IH Hrest b Hb) as [Hm Hm'].
      split; [exact Hm | ].
      intros h' [<- | Hin]; [ | exact (Hm' h' Hin)].
      exact (float_leb_trans _ _ _ Hm (float_nlt_leb _ _ _ _ Hlt Hh Hb)).
Qed.

Lemma minimum_t_hit_le (t_max : float) (hits : list hit_record) :
  (forall h, In h hits -> (t h <? t_max) = true) ->
  forall h, In h hits ->
    exists m, minimum_t_hit hits = Some m /\ (t m <=? t h) = true.
Proof.
  intros Hall h Hin. destruct hits as [|h0 hits]; [destruct Hin | ].
  unfold minimum_t_hit. simpl fold_left. rewrite fold_nearer_some.
  assert (H0 : (t h0 <? t_max) = true) by (apply Hall; left; reflexivity).
  assert (Hrest : forall h', In h' hits -> (t h' <? t_max) = true)
    by (intros h' Hin'; apply Hall; right; exact Hin').
  destruct (nearest_from_le t_max hits Hrest h0 H0) as [Hm Hm'].
  exists (nearest_from h0 hits). split; [reflexivity | ].
  destruct Hin as [<- | Hin]; [exact Hm | exact (Hm' h Hin)].
Qed.

(** C1.  For members that honour the interval they are given,
    [hittable_list::hit] returns what testing each member individually
    over [ray_t] and taking the hit with minimum [t] returns (the first
    such hit in a tie, and [false] with [rec] untouched when there is
    none); the [t] of the hit it returns is at most the [t] of every
    individual hit.  It gets there by testing every member in turn over
    [[ray_t.min, closest_so_far]], where a hit moves [closest_so_far]
    down to its [t].  [rec0] is the record the individual tests start
    from. *)
Theorem hittable_list_hit_nearest (l : hittable_list) (r : ray) (ray_t : interval)
    (rec rec0 : hit_record) :
  (forall object, In object (objects l) ->
     honours_interval object r (interval_min ray_t)) ->
  hittable_list_hit l r ray_t rec
  = match minimum_t_hit (individual_hits (objects l) r ray_t rec0) with
    | Some h => (true, h)
    | None => (false, rec)
    end
  /\ (forall h, In h (individual_hits (objects l) r ray_t rec0) ->
        fst (hittable_list_hit l r ray_t rec) = true
        /\ (t (snd (hittable_list_hit l r ray_t rec)) <=? t h) = true)
  /\ hittable_list_hit l r ray_t rec
     = hit_loop (objects l) r ray_t hit_record_init false (interval_max ray_t) rec
  /\ (forall object rest temp_rec hit_anything closest_so_far rec',
        hit_loop (object :: rest) r ray_t temp_rec hit_anything closest_so_far rec'
        = match object r (mk_interval (interval_min ray_t) closest_so_far) temp_rec with
          | (true, h) => hit_loop rest r ray_t h true (t h) h
          | (false, temp_rec') =>
              hit_loop rest r ray_t temp_rec' hit_anything closest_so_far rec'
          end).
Proof.
  intros Hall.
  assert (Heq := hit_loop_from_start (objects l) r ray_t rec0 Hall hit_record_init rec).
  fold (hittable_list_hit l r ray_t rec) in Heq.
  split; [exact Heq | ].
  split; [ | split; [reflexivity | ]].
  - intros h Hin.
    destruct (minimum_t_hit_le (interval_max ray_t) _
                (individual_hits_below (objects l) r ray_t rec0 Hall) h Hin)
      as [m [Hm Hle]].
    rewrite Heq, Hm. split; [reflexivity | exact Hle].
  - intros object rest temp_rec hit_anything closest_so_far rec'. simpl.
    destruct (object r _ temp_rec) as [[] h]; reflexivity.
Qed.

(** ** The collection is itself a member that honours its interval *)

Lemma individual_hits_filter (objects : list hittable) (r : ray)
    (t_min t_max : float) (rec0 : hit_record) :
  (forall object, In object objects -> honours_interval object r t_min) ->
  individual_hits objects r (mk_interval t_min t_max) rec0
  = filter (fun h => t h <? t_max)
      (individual_hits objects r (mk_interval t_min infinity) rec0).
Proof.
  induction objects as [|object rest IH]; intros Hall.
  - reflexivity.
  - destruct (Hall object (or_introl eq_refl)) as [nearest Hn].
    assert (Hrest : forall o, In o rest -> honours_interval o r t_min)
      by (intros o Ho; apply Hall; right; exact Ho).
    rewrite !individual_hits_cons.
    rewrite (individual_hit_reports object r (mk_interval t_min t_max) rec0 nearest Hn).
    rewrite (individual_hit_reports object r (mk_interval t_min infinity) rec0 nearest Hn).
    simpl interval_max.
    destruct nearest as [h|]; [ | exact (IH Hrest)].
    destruct (t h <? t_max) eqn:Hlt.
    + rewrite (float_ltb_infinity _ _ Hlt). simpl. rewrite Hlt. f_equal. exact (IH Hrest).
    + destruct (t h <? infinity); [ | exact (IH Hrest)].
      simpl. rewrite Hlt. exact (IH Hrest).
Qed.

(** Hits at or beyond [t_max] do not move a best hit below [t_max]. *)
Lemma nearest_from_filter (t_max : float) (hits : list hit_record) (b : hit_record) :
  (t b <? t_max) = true ->
  nearest_from b (filter (fun h => t h <? t_max) hits) = nearest_from b hits.
Proof.
  revert b. induction hits as [|h hits IH]; intros b Hb.
  - reflexivity.
  - simpl filter. destruct (t h <? t_max) eqn:Hh.
    + unfold nearest_from. simpl fold_left.
      destruct (t h <? t b); apply IH; assumption.
    + rewrite (IH b Hb). unfold nearest_from at 2. simpl fold_left.
      destruct (t h <? t b) eqn:Hlt; [ | reflexivity].
      rewrite (float_ltb_trans _ _ _ Hlt Hb) in Hh. discriminate Hh.
Qed.

(** The fold from [b] ends on [b] or on the minimum of the hits, whichever
    is nearer; [b] wins a tie. *)
Lemma nearest_from_minimum (bound : float) (hits : list hit_record) :
  (forall h, In h hits -> (t h <? bound) = true) ->
  forall b, (t b <? bound) = true ->
    nearest_from b hits
    = match minimum_t_hit hits with
      | Some m => if t m <? t b then m else b
      | None => b
      end.
Proof.
  unfold minimum_t_hit.
  induction hits as [|x hits IH]; intros Hall b Hb.
  - reflexivity.
  - assert (Hx : (t x <? bound) = true) by (apply Hall; left; reflexivity).
    assert (Hrest : forall h, In h hits -> (t h <? bound) = true)
      by (intros h Hin; apply Hall; right; exact Hin).
    change (fold_left nearer (x :: hits) None) with (fold_left nearer hits (Some x)).
    rewrite fold_nearer_some.
    change (nearest_from b (x :: hits))
      with (nearest_from (if t x <? t b then x else b) hits).
    destruct (nearest_from_le bound hits Hrest x Hx) as [Hmx _].
    destruct (t x <? t b) eqn:Hxb.
    + rewrite (float_leb_ltb_trans _ _ _ Hmx Hxb). reflexivity.
    + rewrite (IH Hrest b Hb). rewrite (IH Hrest x Hx).
      destruct (fold_left nearer hits None) as [m|]; [ | rewrite Hxb; reflexivity].
      destruct (t m <? t x) eqn:Hmxlt; [reflexivity | ].
      rewrite Hxb.
      destruct (t m <? t b) eqn:Hmb; [ | reflexivity].
      (* t b <= t x <= t m, against t m < t b *)
      assert (Hbx : (t b <=? t x) = true) by exact (float_nlt_leb _ _ _ _ Hxb Hx Hb).
      assert (Hm : (t m <? bound) = true)
        by exact (float_ltb_trans _ _ _ Hmb Hb).
      assert (Hxm : (t x <=? t m) = true) by exact (float_nlt_leb _ _ _ _ Hmxlt Hm Hx).
      rewrite (float_leb_nlt _ _ (float_leb_trans _ _ _ Hbx Hxm)) in Hmb.
      discriminate Hmb.
Qed.

Lemma minimum_t_hit_filter (bound t_max : float) (hits : list hit_record) :
  (forall h, In h hits -> (t h <? bound) = true) ->
  minimum_t_hit (filter (fun h => t h <? t_max) hits)
  = match minimum_t_hit hits with
    | Some m => if t m <? t_max then Some m else None
    | None => None
    end.
Proof.
  induction hits as [|h hits IH]; intros Hall.
  - reflexivity.
  - assert (Hh : (t h <? bound) = true) by (apply Hall; left; reflexivity).
    assert (Hrest : forall x, In x hits -> (t x <? bound) = true)
      by (intros x Hin; apply Hall; right; exact Hin).
    change (minimum_t_hit (h :: hits)) with (fold_left nearer hits (Some h)).
    rewrite fold_nearer_some.
    destruct (nearest_from_le bound hits Hrest h Hh) as [Hm _].
    simpl filter. destruct (t h <? t_max) eqn:Hlt.
    + change (minimum_t_hit (h :: filter (fun x => t x <? t_max) hits))
        with (fold_left nearer (filter (fun x => t x <? t_max) hits) (Some h)).
      rewrite fold_nearer_some, (nearest_from_filter t_max hits h Hlt).
      rewrite (float_leb_ltb_trans _ _ _ Hm Hlt). reflexivity.
    + rewrite (IH Hrest). rewrite (nearest_from_minimum bound hits Hrest h Hh).
      destruct (minimum_t_hit hits) as [m|]; [ | rewrite Hlt; reflexivity].
      destruct (t m <? t h) eqn:Hmh; [reflexivity | ].
      rewrite Hlt.
      destruct (t m <? t_max) eqn:Hmt; [ | reflexivity].
      (* t h <= t m < t_max, against t h >= t_max *)
      assert (Hhm : (t h <=? t m) = true) by exact (float_nlt_leb _ _ _ _ Hmh Hmt Hh).
      rewrite (float_leb_ltb_trans _ _ _ Hhm Hmt) in Hlt. discriminate Hlt.
Qed.

(** X6.  A collection of members that honour their interval honours its
    own: its nearest intersection beyond [t_min] is the nearest of theirs.
    So the protocol holds of collections nested in collections. *)
Lemma hittable_list_honours_interval (l : hittable_list) (r : ray) (t_min : float) :
  (forall object, In object (objects l) -> honours_interval object r t_min) ->
  honours_interval (hittable_list_hit l) r t_min.
Proof.
  intros Hall.
  exists (minimum_t_hit
            (individual_hits (objects l) r (mk_interval t_min infinity)
               hit_record_init)).
  intros t_max rec.
  unfold hittable_list_hit.
  rewrite (hit_loop_from_start (objects l) r (mk_interval t_min t_max)
             hit_record_init Hall hit_record_init rec).
  rewrite (individual_hits_filter (objects l) r t_min t_max hit_record_init Hall).
  rewrite (minimum_t_hit_filter infinity t_max _
             (individual_hits_below (objects l) r (mk_interval t_min infinity)
                hit_record_init Hall)).
  destruct (minimum_t_hit _) as [m|]; [ | reflexivity].
  destruct (t m <? t_max); reflexivity.
Qed.

End HittableList.

(* ================================================================== *)
(** * Hit records                                                      *)
(* ================================================================== *)

Section HitRecord.
Local Open Scope float_scope.

(** Negating the second vector negates the dot product, up to the sign of
    a zero result. *)
Lemma dot_neg_r (u v : vec3) :
  forget_zero_sign (Prim2SF (dot u (- v)%vec3))
  = forget_zero_sign (SFopp (Prim2SF (dot u v))).
Proof.
  unfold dot, vec3_neg. simpl.
  rewrite !FloatAxioms.add_spec, !FloatAxioms.mul_spec, !FloatAxioms.opp_spec. unfold SF64add, SF64mul.
  rewrite !SFmul_opp_r.
  rewrite <- SFadd_opp.
  apply SFadd_forget_zero_sign_l.
  apply SFadd_opp.
Qed.

(** The comparison with zero of a dot product against the negated vector:
    it holds exactly when the dot product is a number that is not
    negative. *)
Lemma dot_neg_r_nonpos (u v : vec3) :
  (dot u (- v)%vec3 <=? 0) = negb (is_nan (dot u v)) && negb (dot u v <? 0).
Proof.
  rewrite FloatAxioms.leb_spec, FloatAxioms.ltb_spec, float_is_nan_spec.
  unfold SFleb, SFltb.
  rewrite <- (SFcompare_forget_zero_sign_l (Prim2SF (dot u (- v)%vec3))), dot_neg_r.
  rewrite SFcompare_forget_zero_sign_l.
  change (Prim2SF 0) with (S754_zero false).
  rewrite SFcompare_opp_zero.
  destruct (Prim2SF (dot u v)) as [s|s| |s m e]; simpl; try reflexivity;
    destruct s; reflexivity.
Qed.

Lemma ltb_zero_not_nan (a : float) : (a <? 0) = true -> is_nan a = false.
Proof.
  rewrite FloatAxioms.ltb_spec, float_is_nan_spec. unfold SFltb.
  destruct (Prim2SF a); simpl; congruence.
Qed.

(** The dot product of a finite vector with a vector whose components
    lie in [[-1, 1]] is not NaN: no product overflows, so the sum never
    meets two infinities of opposite signs. *)
Lemma dot_not_nan (u v : vec3) :
  vec3_finite u = true -> unit_bounded v = true -> is_nan (dot u v) = false.
Proof.
  unfold vec3_finite, unit_bounded, isfinite. intros Hu Hv.
  apply andb_true_iff in Hu. destruct Hu as [Hu Huz].
  apply andb_true_iff in Hu. destruct Hu as [Hux Huy].
  apply andb_true_iff in Hv. destruct Hv as [Hv Hvz].
  apply andb_true_iff in Hv. destruct Hv as [Hvx Hvy].
  pose proof (mul_finite _ _ Hux Hvx) as Px.
  pose proof (mul_finite _ _ Huy Hvy) as Py.
  pose proof (mul_finite _ _ Huz Hvz) as Pz.
  rewrite float_is_nan_spec. unfold dot.
  rewrite !FloatAxioms.add_spec. unfold SF64add.
  assert (Hxy : SFadd prec emax (Prim2SF (vec3_x u * vec3_x v))
                  (Prim2SF (vec3_y u * vec3_y v)) <> S754_nan)
    by (apply SFadd_finite_not_nan; [apply SF_is_finite_not_nan | ]; assumption).
  pose proof (SFadd_finite_not_nan _ _ Hxy Pz) as Hxyz.
  destruct (SFadd prec emax _ (Prim2SF (vec3_z u * vec3_z v))); congruence.
Qed.

(** [set_face_normal] on any ray and any normal: the stored normal
    satisfies [dot(r.direction, normal) <= 0] exactly when
    [dot(r.direction, outward_normal)] is not NaN. *)
Lemma set_face_normal_dot (rec : hit_record) (r : ray) (outward_normal : vec3) :
  (dot (direction r) (normal (set_face_normal rec r outward_normal)) <=? 0)
  = negb (is_nan (dot (direction r) outward_normal)).
Proof.
  unfold set_face_normal. simpl.
  destruct (dot (direction r) outward_normal <? 0) eqn:Hlt.
  - rewrite (ltb_zero_not_nan _ Hlt). exact (float_ltb_leb _ _ Hlt).
  - rewrite dot_neg_r_nonpos, Hlt, andb_true_r. reflexivity.
Qed.

(** C3.  For a ray with a finite direction and an outward unit normal
    (no component beyond 1 in absolute value), [set_face_normal] stores
    [front_face = (dot(r.direction, outward_normal) < 0)] and the outward
    normal when [front_face] is true, its negation otherwise; the normal
    it stores satisfies [dot(r.direction, normal) <= 0].  The members
    [point], [t] and [mat] stay as they were. *)
Theorem set_face_normal_orients (rec : hit_record) (r : ray) (outward_normal : vec3) :
  vec3_finite (direction r) = true ->
  unit_bounded outward_normal = true ->
  let rec' := set_face_normal rec r outward_normal in
  front_face rec' = (dot (direction r) outward_normal <? 0)
  /\ normal rec' = (if front_face rec' then outward_normal else (- outward_normal)%vec3)
  /\ (dot (direction r) (normal rec') <=? 0) = true
  /\ point rec' = point rec /\ t rec' = t rec /\ mat rec' = mat rec.
Proof.
  intros Hr Hn rec'.
  split; [reflexivity | ]. split; [reflexivity | ].
  split; [ | repeat split].
  unfold rec'. rewrite set_face_normal_dot, (dot_not_nan _ _ Hr Hn). reflexivity.
Qed.

(** The finiteness of the direction cannot be dropped from C3: with a NaN
    component the dot product is NaN, [front_face] is false, the stored
    normal is the negated one, and its dot product with the direction is
    NaN, which is not [<= 0]. *)
Remark set_face_normal_nan_direction :
  let r := mk_ray (mk_vec3 0 0 0) (mk_vec3 nan 0 0) in
  let outward_normal := mk_vec3 1 0 0 in
  let rec' := set_face_normal record_before r outward_normal in
  front_face rec' = false
  /\ normal rec' = mk_vec3 (-1) (-0) (-0)
  /\ (dot (direction r) (normal rec') <=? 0) = false.
Proof. vm_compute. repeat split. Qed.

End HitRecord.

(* ================================================================== *)
(** * Materials                                                        *)
(* ================================================================== *)

Section Materials.
Context {E : externals}.
Local Open Scope float_scope.

(** C5.  [dielectric::scatter] returns [true] on every path and the
    attenuation it writes is [color(1.0, 1.0, 1.0)]; the scattered ray
    leaves from the hit point.  The same holds of the virtual call on a
    dielectric material. *)
Theorem dielectric_scatter_never_absorbs (self : dielectric) (r_in : ray)
    (hit : hit_record) (g : rng) :
  let s := fst (dielectric_scatter self r_in hit g) in
  did_scatter s = true
  /\ attenuation s = mk_vec3 1 1 1
  /\ origin (scattered s) = point hit
  /\ scatter (Dielectric self) r_in hit g = dielectric_scatter self r_in hit g.
Proof.
  cbn zeta.
  split; [ | split; [ | split; [ | reflexivity]]];
    unfold dielectric_scatter; cbn zeta;
    (destruct (1 <? _); [ | destruct (random_double g) as [x g1]]; reflexivity).
Qed.

(** C6.  [metal::scatter] sends the scattered ray from the hit point in
    the direction [reflect(unit_vector(r_in.direction), normal) +
    fuzz * random_unit_vector()], and returns [true] if and only if the dot
    product of that direction with the normal is greater than 0; when the
    dot product is [<= 0] it returns [false]. *)
Theorem metal_scatter_absorbs_inward (self : metal) (r_in : ray)
    (hit : hit_record) (g : rng) :
  let s := fst (metal_scatter self r_in hit g) in
  direction (scattered s)
  = (reflect (unit_vector (direction r_in)) (normal hit)
     + fuzz self *: fst (random_unit_vector g))%vec3
  /\ origin (scattered s) = point hit
  /\ attenuation s = metal_albedo self
  /\ (did_scatter s = true
      <-> (0 <? dot (direction (scattered s)) (normal hit)) = true)
  /\ ((dot (direction (scattered s)) (normal hit) <=? 0) = true ->
      did_scatter s = false).
Proof.
  unfold metal_scatter. cbn zeta.
  destruct (random_unit_vector g) as [u g1]. simpl.
  repeat split; try (intros H; exact H).
  apply float_leb_nlt.
Qed.

(** C7.  [lambertian::scatter] always returns [true] with the albedo as
    attenuation and a ray from the hit point; its direction is the hit
    normal exactly when [normal + random_unit_vector()] is near zero, and
    that sum otherwise.  So the degenerate sum is never passed on: the
    direction produced is not near zero when the hit normal is not, and
    it could be near zero only if both the normal and the sum of the
    normal and the random vector were, which a vector of unit length
    rules out. *)
Theorem lambertian_scatter_direction (self : lambertian) (r_in : ray)
    (hit : hit_record) (g : rng) :
  let u := fst (random_unit_vector g) in
  let s := fst (lambertian_scatter self r_in hit g) in
  did_scatter s = true
  /\ attenuation s = lambertian_albedo self
  /\ origin (scattered s) = point hit
  /\ (near_zero (normal hit + u)%vec3 = true ->
      direction (scattered s) = normal hit)
  /\ (near_zero (normal hit + u)%vec3 = false ->
      direction (scattered s) = (normal hit + u)%vec3
      /\ near_zero (direction (scattered s)) = false)
  /\ (near_zero (normal hit) = false ->
      near_zero (direction (scattered s)) = false)
  /\ (near_zero (direction (scattered s)) = true ->
      near_zero (normal hit) = true /\ near_zero (normal hit + u)%vec3 = true).
Proof.
  unfold lambertian_scatter. cbn zeta.
  destruct (random_unit_vector g) as [u g1]. simpl.
  destruct (near_zero (normal hit + u)%vec3) eqn:Hnz; simpl;
    repeat split; try congruence; try (intros H; exact H).
Qed.

(** With the [near_zero] of vec3.h (every component below [1e-8] in
    absolute value), a near-zero vector plus a vector with a component of
    at least one half is not near zero. *)
Lemma reference_near_zero_sum (n u : vec3) :
  reference_near_zero n = true -> has_large_component u = true ->
  reference_near_zero (n + u)%vec3 = false.
Proof.
  unfold reference_near_zero, has_large_component. intros Hn Hu.
  apply andb_true_iff in Hn. destruct Hn as [Hn Hz].
  apply andb_true_iff in Hn. destruct Hn as [Hx Hy].
  destruct n as [nx ny nz], u as [ux uy uz]. cbn in *.
  apply orb_true_iff in Hu. destruct Hu as [Hu | Hu];
    [apply orb_true_iff in Hu; destruct Hu as [Hu | Hu] | ].
  - rewrite (add_small_large nx ux Hx Hu). reflexivity.
  - rewrite (add_small_large ny uy Hy Hu), andb_false_r. reflexivity.
  - rewrite (add_small_large nz uz Hz Hu). apply andb_false_r.
Qed.

(** So, where [near_zero] is the one of vec3.h and the random vector has
    a component of at least one half, as a vector of unit length has, the
    direction [lambertian::scatter] produces is never near zero, whatever
    the hit normal. *)
Remark lambertian_scatter_not_near_zero (self : lambertian) (r_in : ray)
    (hit : hit_record) (g : rng) :
  (forall v, near_zero v = reference_near_zero v) ->
  has_large_component (fst (random_unit_vector g)) = true ->
  near_zero (direction (scattered (fst (lambertian_scatter self r_in hit g))))
  = false.
Proof.
  intros Hnz Hu. unfold lambertian_scatter.
  destruct (random_unit_vector g) as [u g1]. cbn [fst] in *.
  destruct (near_zero (normal hit + u)%vec3) eqn:Hsum; cbn; [ | exact Hsum].
  destruct (near_zero (normal hit)) eqn:Hn; [ | reflexivity].
  rewrite Hnz in Hn, Hsum.
  rewrite (reference_near_zero_sum (normal hit) u Hn Hu) in Hsum.
  discriminate Hsum.
Qed.

End Materials.

Section MetalFuzz.
Local Open Scope float_scope.

(** C9.  The fuzz factor that [metal::metal(a, f)] stores is at most 1:
    it is [f] when [f < 1] and 1 otherwise (also when [f] is NaN).  The
    member is private and [scatter], the only member function, is
    [const]: it is the value [scatter] perturbs the reflection with. *)
Theorem metal_fuzz_at_most_one (a : color) (f : float) :
  (fuzz (metal_new a f) <=? 1) = true
  /\ ((f <? 1) = true -> fuzz (metal_new a f) = f)
  /\ ((f <? 1) = false -> fuzz (metal_new a f) = 1)
  /\ metal_albedo (metal_new a f) = a
  /\ forall (E : externals) (r_in : ray) (hit : hit_record) (g : rng),
       direction (scattered (fst (metal_scatter (metal_new a f) r_in hit g)))
       = (reflect (unit_vector (direction r_in)) (normal hit)
          + (if f <? 1 then f else 1) *: fst (random_unit_vector g))%vec3.
Proof.
  unfold metal_new. simpl.
  destruct (f <? 1) eqn:Hf; repeat split; try congruence;
    try exact (float_ltb_leb _ _ Hf);
    intros E r_in hit g; unfold metal_scatter; simpl; rewrite ?Hf;
    destruct (random_unit_vector g); reflexivity.
Qed.

End MetalFuzz.

(* ================================================================== *)
(** * The camera                                                       *)
(* ================================================================== *)

Section CameraFacts.
Context {E : externals}.
Local Open Scope float_scope.

(** The equation of [camera::ray_color], as the source writes it: the
    fuel that [ray_color] starts with is enough for every call. *)
Lemma ray_color_equation (r : ray) (depth : Z) (world : hittable) (g : rng) :
  ray_color r depth world g
  = if (depth <=? 0)%Z then Some (mk_vec3 0 0 0, g)
    else
      let '(found, hit) := world r (mk_interval 0.001 infinity) hit_record_init in
      if found then
        match mat hit with
        | None => None
        | Some m =>
            let '(s, g1) := scatter m r hit g in
            if did_scatter s then
              match ray_color (scattered s) (depth - 1) world g1 with
              | None => None
              | Some (c, g2) => Some (vec3_mul (attenuation s) c, g2)
              end
            else Some (mk_vec3 0 0 0, g1)
        end
      else Some (background r, g).
Proof.
  unfold ray_color.
  destruct (depth <=? 0)%Z eqn:Hd.
  - destruct (Z.to_nat depth); simpl; rewrite Hd; reflexivity.
  - apply Z.leb_gt in Hd.
    replace (Z.to_nat depth) with (S (Z.to_nat (depth - 1))) by lia.
    simpl. destruct (depth <=? 0)%Z eqn:Hd'; [apply Z.leb_le in Hd'; lia | ].
    reflexivity.
Qed.

(** C2.  With [depth <= 0], [ray_color] returns [color(0,0,0)] whatever
    the world, without a hit test, a recursive call or a random draw: the
    random source is left in the state it was in. *)
Theorem ray_color_depth_exhausted (r : ray) (depth : Z) (world : hittable) (g : rng) :
  (depth <= 0)%Z ->
  ray_color r depth world g = Some (mk_vec3 0 0 0, g).
Proof.
  intros Hd. rewrite ray_color_equation.
  apply Z.leb_le in Hd. rewrite Hd. reflexivity.
Qed.

Lemma background_sky_gradient (r : ray) : background r = sky_gradient r.
Proof. reflexivity. Qed.

Lemma hittable_list_hit_empty (r : ray) (ray_t : interval) (rec : hit_record) :
  hittable_list_hit hittable_list_new r ray_t rec = (false, rec).
Proof. reflexivity. Qed.

(** C8.  With [depth > 0], a ray that the world reports no hit for is
    coloured with the background gradient, [(1-a)*white + a*sky-blue]
    with [a = 0.5*(y+1)] and [y] the vertical component of the unit
    direction, and no random draw is made; an empty [hittable_list] is
    such a world for every ray. *)
Theorem ray_color_miss_is_sky_gradient (r : ray) (depth : Z) (g : rng) :
  (0 < depth)%Z ->
  (forall world : hittable,
     fst (world r (mk_interval 0.001 infinity) hit_record_init) = false ->
     ray_color r depth world g = Some (sky_gradient r, g))
  /\ ray_color r depth (hittable_list_hit hittable_list_new) g
     = Some (sky_gradient r, g).
Proof.
  intros Hd.
  assert (Hmiss : forall world : hittable,
             fst (world r (mk_interval 0.001 infinity) hit_record_init) = false ->
             ray_color r depth world g = Some (sky_gradient r, g)).
  { intros world Hw. rewrite ray_color_equation.
    destruct (depth <=? 0)%Z eqn:Hd'; [apply Z.leb_le in Hd'; lia | ].
    destruct (world r _ hit_record_init) as [found hit]. simpl in Hw. subst found.
    rewrite background_sky_gradient. reflexivity. }
  split; [exact Hmiss | ].
  apply Hmiss. rewrite hittable_list_hit_empty. reflexivity.
Qed.

(** The sample loop adds the results of its calls of [ray_color] to the
    accumulator, in order. *)
Lemma sample_loop_sums (remaining : nat) (cam : camera) (world : hittable)
    (i j : Z) (pixel_color : color) (g : rng) :
  sample_loop remaining cam world i j pixel_color g
  = match pixel_samples remaining cam world i j g with
    | None => None
    | Some (cs, g') => Some (sum_colors pixel_color cs, g')
    end.
Proof.
  revert pixel_color g.
  induction remaining as [|remaining IH]; intros pixel_color g; simpl.
  - reflexivity.
  - destruct (get_ray cam i j g) as [r g1].
    destruct (ray_color r (max_depth cam) world g1) as [[c g2]|]; [ | reflexivity].
    rewrite IH.
    destruct (pixel_samples remaining cam world i j g2) as [[cs g3]|]; reflexivity.
Qed.

Lemma pixel_samples_length (remaining : nat) (cam : camera) (world : hittable)
    (i j : Z) (g g' : rng) (cs : list color) :
  pixel_samples remaining cam world i j g = Some (cs, g') ->
  length cs = remaining.
Proof.
  revert g g' cs.
  induction remaining as [|remaining IH]; intros g g' cs; simpl.
  - intros [= <- _]. reflexivity.
  - destruct (get_ray cam i j g) as [r g1].
    destruct (ray_color r (max_depth cam) world g1) as [[c g2]|]; [ | discriminate].
    destruct (pixel_samples remaining cam world i j g2) as [[cs' g3]|] eqn:Hs;
      [ | discriminate].
    intros [= <- _]. simpl. f_equal. exact (IH g2 g3 cs' Hs).
Qed.

Lemma render_pixel_sum (cam : camera) (world : hittable) (i j : Z) (g : rng) :
  render_pixel cam world i j g
  = match pixel_samples (Z.to_nat (samples_per_pixel cam)) cam world i j g with
    | None => None
    | Some (cs, g') =>
        Some (mk_write_color_call (sum_colors (mk_vec3 0 0 0) cs)
                (samples_per_pixel cam), g')
    end.
Proof.
  unfold render_pixel. rewrite sample_loop_sums.
  destruct (pixel_samples _ cam world i j g) as [[cs g']|]; reflexivity.
Qed.

Lemma render_scanline_hands_sums (remaining : nat) (cam : camera) (world : hittable)
    (i j : Z) (g g' : rng) (calls : list write_color_call) :
  render_scanline remaining cam world i j g = Some (calls, g') ->
  Forall (hands_sum cam world) calls.
Proof.
  revert i g g' calls.
  induction remaining as [|remaining IH]; intros i g g' calls; simpl.
  - intros [= <- _]. constructor.
  - destruct (render_pixel cam world i j g) as [[call g1]|] eqn:Hp; [ | discriminate].
    destruct (render_scanline remaining cam world (i + 1) j g1) as [[rest g2]|] eqn:Hr;
      [ | discriminate].
    intros [= <- _]. constructor; [ | exact (IH _ _ _ _ Hr)].
    rewrite render_pixel_sum in Hp.
    destruct (pixel_samples _ cam world i j g) as [[cs g3]|] eqn:Hs; [ | discriminate].
    injection Hp as <- _. exists i, j, g, g3, cs. split; [exact Hs | reflexivity].
Qed.

Lemma render_scanlines_hands_sums (remaining : nat) (cam : camera) (world : hittable)
    (j : Z) (g g' : rng) (calls : list write_color_call) :
  render_scanlines remaining cam world j g = Some (calls, g') ->
  Forall (hands_sum cam world) calls.
Proof.
  revert j g g' calls.
  induction remaining as [|remaining IH]; intros j g g' calls; simpl.
  - intros [= <- _]. constructor.
  - destruct (render_scanline _ cam world 0 j g) as [[row g1]|] eqn:Hrow; [ | discriminate].
    destruct (render_scanlines remaining cam world (j + 1) g1) as [[rows g2]|] eqn:Hrows;
      [ | discriminate].
    intros [= <- _]. apply Forall_app. split.
    + exact (render_scanline_hands_sums _ _ _ _ _ _ _ _ Hrow).
    + exact (IH _ _ _ _ Hrows).
Qed.

(** C4 (as amended).  For every pixel, [render] hands [write_color] the
    sum of the [samples_per_pixel] results of [ray_color], starting from
    [color(0,0,0)], together with the sample count: the sum is not
    divided before the hand-off.  This holds of the body of the pixel
    loop and of every call that a run of [render] makes. *)
Theorem render_pixel_hands_sum (cam : camera) (world : hittable) (i j : Z) (g : rng) :
  render_pixel cam world i j g
  = match pixel_samples (Z.to_nat (samples_per_pixel cam)) cam world i j g with
    | None => None
    | Some (cs, g') =>
        Some (mk_write_color_call (sum_colors (mk_vec3 0 0 0) cs)
                (samples_per_pixel cam), g')
    end
  /\ (forall cs g',
        pixel_samples (Z.to_nat (samples_per_pixel cam)) cam world i j g
        = Some (cs, g') ->
        length cs = Z.to_nat (samples_per_pixel cam))
  /\ (forall calls g',
        render cam world g = Some (calls, g') ->
        Forall (hands_sum cam world) calls).
Proof.
  split; [apply render_pixel_sum | split].
  - intros cs g'. apply pixel_samples_length.
  - intros calls g'. apply render_scanlines_hands_sums.
Qed.

End CameraFacts.

(* ================================================================== *)
(** * More on the order of binary64 values                           *)
(* ================================================================== *)

Section FloatEquality.
Local Open Scope float_scope.

Lemma float_leb_antisym (a b : float) :
  (a <=? b) = true -> (b <=? a) = true -> (a =? b) = true.
Proof.
  rewrite !FloatAxioms.leb_spec, FloatAxioms.eqb_spec. unfold SFleb, SFeqb.
  rewrite (SFcompare_antisym (Prim2SF a) (Prim2SF b)).
  destruct (SFcompare (Prim2SF a) (Prim2SF b)) as [[]|]; simpl; congruence.
Qed.

Lemma float_eqb_nlt (a b : float) : (a =? b) = true -> (a <? b) = false /\ (b <? a) = false.
Proof.
  rewrite FloatAxioms.eqb_spec, !FloatAxioms.ltb_spec. unfold SFeqb, SFltb.
  rewrite (SFcompare_antisym (Prim2SF a) (Prim2SF b)).
  destruct (SFcompare (Prim2SF a) (Prim2SF b)) as [[]|]; simpl; try discriminate.
  split; reflexivity.
Qed.

Lemma float_opp_involutive (x : float) : - - x = x.
Proof.
  apply FloatAxioms.Prim2SF_inj. rewrite !FloatAxioms.opp_spec.
  destruct (Prim2SF x) as [s|s| |s m e]; simpl; rewrite ?negb_involutive; reflexivity.
Qed.

(** A finite number times a zero is a zero. *)
Lemma mul_finite_zero (a c : float) :
  isfinite a = true -> (c =? 0) = true -> (a * c =? 0) = true.
Proof.
  unfold isfinite. intros Ha Hc.
  apply abs_ltb_infinity_finite in Ha.
  rewrite FloatAxioms.eqb_spec in Hc |- *. rewrite FloatAxioms.mul_spec.
  change (Prim2SF 0) with (S754_zero false) in *. unfold SF64mul.
  destruct (Prim2SF c) as [sc|sc| |sc mc ec]; try discriminate Hc;
    try (destruct sc; discriminate Hc).
  destruct (Prim2SF a) as [sa|sa| |sa ma ea]; try discriminate Ha; reflexivity.
Qed.

End FloatEquality.

(* ================================================================== *)
(** * More on the hittable collection                                *)
(* ================================================================== *)

Section HittableListMore.
Context {E : externals}.
Local Open Scope float_scope.

Lemma individual_hits_app (objs1 objs2 : list hittable) (r : ray) (ray_t : interval)
    (rec0 : hit_record) :
  individual_hits (objs1 ++ objs2) r ray_t rec0
  = individual_hits objs1 r ray_t rec0 ++ individual_hits objs2 r ray_t rec0.
Proof. unfold individual_hits. apply flat_map_app. Qed.

Lemma individual_hits_one (object : hittable) (r : ray) (ray_t : interval)
    (rec0 : hit_record) :
  individual_hits [object] r ray_t rec0
  = match individual_hit object r ray_t rec0 with Some h => [h] | None => [] end.
Proof.
  unfold individual_hits. simpl. apply app_nil_r.
Qed.

Lemma nearest_from_in (hits : list hit_record) (b : hit_record) :
  nearest_from b hits = b \/ In (nearest_from b hits) hits.
Proof.
  revert b. induction hits as [|h hits IH]; intros b.
  - left. reflexivity.
  - unfold nearest_from. simpl fold_left.
    destruct (t h <? t b).
    + destruct (IH h) as [Heq | Hin].
      * right. left. symmetry. exact Heq.
      * right. right. exact Hin.
    + destruct (IH b) as [Heq | Hin].
      * left. exact Heq.
      * right. right. exact Hin.
Qed.

Lemma minimum_t_hit_in (hits : list hit_record) (m : hit_record) :
  minimum_t_hit hits = Some m -> In m hits.
Proof.
  destruct hits as [|h hits]; [discriminate | ].
  unfold minimum_t_hit. simpl fold_left. rewrite fold_nearer_some.
  intros [= <-]. destruct (nearest_from_in hits h) as [-> | Hin].
  - left. reflexivity.
  - right. exact Hin.
Qed.

Lemma minimum_t_hit_none (hits : list hit_record) :
  minimum_t_hit hits = None -> hits = [].
Proof.
  destruct hits as [|h hits]; [reflexivity | ].
  unfold minimum_t_hit. simpl fold_left. rewrite fold_nearer_some. discriminate.
Qed.

Lemma minimum_t_hit_app (hits1 hits2 : list hit_record) :
  minimum_t_hit (hits1 ++ hits2)
  = match minimum_t_hit hits1 with
    | Some m => Some (nearest_from m hits2)
    | None => minimum_t_hit hits2
    end.
Proof.
  unfold minimum_t_hit. rewrite fold_left_app.
  destruct (fold_left nearer hits1 None) as [m|]; [apply fold_nearer_some | reflexivity].
Qed.

Lemma fold_nearer_in (hits : list hit_record) (start : option hit_record)
    (b : hit_record) :
  fold_left nearer hits start = Some b -> start = Some b \/ In b hits.
Proof.
  revert start. induction hits as [|h hits IH]; intros start; simpl.
  - intros ->. left. reflexivity.
  - intros H. destruct (IH _ H) as [Hs | Hin]; [ | right; right; exact Hin].
    destruct start as [s|]; simpl in Hs.
    + destruct (t h <? t s); injection Hs as <-;
        [right; left; reflexivity | left; reflexivity].
    + injection Hs as <-. right. left. reflexivity.
Qed.

(** Folding [nearer] over the minimum of a list of hits alone, or over
    the whole list, ends on the same hit. *)
Lemma fold_nearer_minimum (bound : float) (inner : list hit_record)
    (start : option hit_record) :
  (forall h, In h inner -> (t h <? bound) = true) ->
  (forall b, start = Some b -> (t b <? bound) = true) ->
  fold_left nearer
    (match minimum_t_hit inner with Some m => [m] | None => [] end) start
  = fold_left nearer inner start.
Proof.
  intros Hin Hstart.
  destruct start as [b|].
  - rewrite (fold_nearer_some inner b).
    rewrite (nearest_from_minimum bound inner Hin b (Hstart b eq_refl)).
    destruct (minimum_t_hit inner) as [m|]; simpl; [ | reflexivity].
    destruct (t m <? t b); reflexivity.
  - destruct (minimum_t_hit inner) as [m|] eqn:Hm.
    + exact (eq_sym Hm).
    + rewrite (minimum_t_hit_none inner Hm). reflexivity.
Qed.

(** The nearest intersection of a collection beyond [t_min]: the nearest
    of those of its members. *)
Lemma hittable_list_reports_nearest (l : hittable_list) (r : ray) (t_min : float) :
  (forall object, In object (objects l) -> honours_interval object r t_min) ->
  reports_nearest (hittable_list_hit l) r t_min
    (minimum_t_hit
       (individual_hits (objects l) r (mk_interval t_min infinity) hit_record_init)).
Proof.
  intros Hall t_max rec.
  unfold hittable_list_hit.
  rewrite (hit_loop_from_start (objects l) r (mk_interval t_min t_max)
             hit_record_init Hall hit_record_init rec).
  rewrite (individual_hits_filter (objects l) r t_min t_max hit_record_init Hall).
  rewrite (minimum_t_hit_filter infinity t_max _
             (individual_hits_below (objects l) r (mk_interval t_min infinity)
                hit_record_init Hall)).
  destruct (minimum_t_hit _) as [m|]; [ | reflexivity].
  destruct (t m <? t_max); reflexivity.
Qed.

(** The hit of a collection as the minimum of the individual hits. *)
Lemma hittable_list_hit_minimum (l : hittable_list) (r : ray) (ray_t : interval)
    (rec rec0 : hit_record) :
  (forall object, In object (objects l) ->
     honours_interval object r (interval_min ray_t)) ->
  hittable_list_hit l r ray_t rec
  = match minimum_t_hit (individual_hits (objects l) r ray_t rec0) with
    | Some h => (true, h)
    | None => (false, rec)
    end.
Proof.
  intros Hall. exact (hit_loop_from_start (objects l) r ray_t rec0 Hall hit_record_init rec).
Qed.

(** X1.  A collection made of one object, by the constructor
    [hittable_list(object)] or by [add] after [clear], reports the hit
    that the object reports over [ray_t] from a default-initialised
    record, and on a miss returns [false] with the record of the caller
    as it was, whatever the object wrote to the record it was handed.  A
    cleared collection reports no hit. *)
Theorem hittable_list_of_hit (object : hittable) (l : hittable_list) (r : ray)
    (ray_t : interval) (rec : hit_record) :
  hittable_list_hit (hittable_list_of object) r ray_t rec
  = (let '(found, h) := object r ray_t hit_record_init in
     if found then (true, h) else (false, rec))
  /\ hittable_list_hit (hittable_list_add (hittable_list_clear l) object) r ray_t rec
     = hittable_list_hit (hittable_list_of object) r ray_t rec
  /\ hittable_list_hit (hittable_list_clear l) r ray_t rec = (false, rec).
Proof.
  split; [ | split; reflexivity].
  unfold hittable_list_hit, hittable_list_of, hittable_list_add. simpl.
  destruct ray_t as [t_min t_max]. simpl.
  destruct (object r _ hit_record_init) as [[] h]; reflexivity.
Qed.

Lemma hit_loop_caller_record (objects : list hittable) (r : ray) (ray_t : interval)
    (temp_rec : hit_record) (hit_anything : bool) (closest_so_far : float) :
  (forall rec, hit_loop objects r ray_t temp_rec hit_anything closest_so_far rec
               = (hit_anything, rec))
  \/ exists h : hit_record,
       forall rec, hit_loop objects r ray_t temp_rec hit_anything closest_so_far rec
                   = (true, h).
Proof.
  revert temp_rec hit_anything closest_so_far.
  induction objects as [|object rest IH]; intros temp_rec hit_anything closest.
  - left. reflexivity.
  - simpl hit_loop.
    destruct (object r (mk_interval (interval_min ray_t) closest) temp_rec)
      as [[] temp_rec'].
    + right. exists (snd (hit_loop rest r ray_t temp_rec' true (t temp_rec') temp_rec')).
      intros rec.
      pose proof (hit_loop_after_hit rest r ray_t temp_rec' (t temp_rec') temp_rec') as H.
      destruct (hit_loop rest r ray_t temp_rec' true (t temp_rec') temp_rec')
        as [found h]. simpl in *. subst found. reflexivity.
    + apply IH.
Qed.

(** X2.  Whatever the members do, the flag that [hittable_list::hit]
    returns does not depend on the record the caller passes, and neither
    does the record it returns on a hit: [rec] is an output only, so a
    caller may pass an uninitialised record, as [ray_color] does. *)
Theorem hittable_list_hit_ignores_caller_record (l : hittable_list) (r : ray)
    (ray_t : interval) (rec rec' : hit_record) :
  fst (hittable_list_hit l r ray_t rec) = fst (hittable_list_hit l r ray_t rec')
  /\ (fst (hittable_list_hit l r ray_t rec) = true ->
      hittable_list_hit l r ray_t rec' = hittable_list_hit l r ray_t rec).
Proof.
  unfold hittable_list_hit.
  destruct (hit_loop_caller_record (objects l) r ray_t hit_record_init false
              (interval_max ray_t)) as [Hmiss | [h Hhit]].
  - rewrite (Hmiss rec), (Hmiss rec'). split; [reflexivity | discriminate].
  - rewrite (Hhit rec), (Hhit rec'). split; reflexivity.
Qed.

Lemma hit_loop_reported (objects : list hittable) (r : ray) (ray_t : interval)
    (temp_rec : hit_record) (hit_anything : bool) (closest_so_far : float)
    (rec : hit_record) :
  hit_loop objects r ray_t temp_rec hit_anything closest_so_far rec
  = (hit_anything, rec)
  \/ exists (object : hittable) (t_max : float) (temp : hit_record),
       In object objects
       /\ object r (mk_interval (interval_min ray_t) t_max) temp
          = hit_loop objects r ray_t temp_rec hit_anything closest_so_far rec.
Proof.
  revert temp_rec hit_anything closest_so_far rec.
  induction objects as [|object rest IH]; intros temp_rec hit_anything closest rec.
  - left. reflexivity.
  - simpl hit_loop.
    destruct (object r (mk_interval (interval_min ray_t) closest) temp_rec)
      as [[] temp_rec'] eqn:Hobj.
    + destruct (IH temp_rec' true (t temp_rec') temp_rec') as [Heq | Hex].
      * right. exists object, closest, temp_rec.
        split; [left; reflexivity | ]. rewrite Heq. exact Hobj.
      * right. destruct Hex as [o [t_max [temp [Hin Ho]]]].
        exists o, t_max, temp. split; [right; exact Hin | exact Ho].
    + destruct (IH temp_rec' hit_anything closest rec) as [Heq | Hex].
      * left. exact Heq.
      * right. destruct Hex as [o [t_max [temp [Hin Ho]]]].
        exists o, t_max, temp. split; [right; exact Hin | exact Ho].
Qed.

(** X3.  Whatever the members do, a hit that [hittable_list::hit] returns
    is a hit that one of its members reported, tested over an interval
    with the lower bound of [ray_t]: the collection makes up no record of
    its own. *)
Theorem hittable_list_hit_reported_by_member (l : hittable_list) (r : ray)
    (ray_t : interval) (rec : hit_record) :
  fst (hittable_list_hit l r ray_t rec) = true ->
  exists (object : hittable) (t_max : float) (temp : hit_record),
    In object (objects l)
    /\ object r (mk_interval (interval_min ray_t) t_max) temp
       = (true, snd (hittable_list_hit l r ray_t rec)).
Proof.
  unfold hittable_list_hit. intros Hhit.
  destruct (hit_loop_reported (objects l) r ray_t hit_record_init false
              (interval_max ray_t) rec) as [Heq | Hex].
  - rewrite Heq in Hhit. discriminate Hhit.
  - destruct Hex as [o [t_max [temp [Hin Ho]]]].
    exists o, t_max, temp. split; [exact Hin | ].
    rewrite Ho. destruct (hit_loop _ _ _ _ _ _ _) as [found h]. simpl in *.
    subst found. reflexivity.
Qed.

(** X4.  For members that honour the interval they are given, a hit that
    [hittable_list::hit] returns is one of the individual hits of the
    members over [ray_t], and its [t] is below [ray_t.max]. *)
Theorem hittable_list_hit_within_bound (l : hittable_list) (r : ray)
    (ray_t : interval) (rec rec0 : hit_record) :
  (forall object, In object (objects l) ->
     honours_interval object r (interval_min ray_t)) ->
  fst (hittable_list_hit l r ray_t rec) = true ->
  In (snd (hittable_list_hit l r ray_t rec))
     (individual_hits (objects l) r ray_t rec0)
  /\ (t (snd (hittable_list_hit l r ray_t rec)) <? interval_max ray_t) = true.
Proof.
  intros Hall. rewrite (hittable_list_hit_minimum l r ray_t rec rec0 Hall).
  destruct (minimum_t_hit _) as [m|] eqn:Hm; [ | discriminate].
  intros _. simpl.
  pose proof (minimum_t_hit_in _ _ Hm) as Hin.
  split; [exact Hin | ].
  exact (individual_hits_below (objects l) r ray_t rec0 Hall m Hin).
Qed.

(** X5.  For members that honour their interval, the hit of a collection
    after [add(object)] is the hit of the collection before, replaced by
    the hit of [object] if it has one over [[ray_t.min, t]] with [t] that
    of the earlier hit (over [ray_t] if there was none).  So adding an
    object never loses a hit and never moves it farther. *)
Theorem hittable_list_add_hit (l : hittable_list) (object : hittable) (r : ray)
    (ray_t : interval) (rec rec0 : hit_record) :
  (forall o, In o (objects l) -> honours_interval o r (interval_min ray_t)) ->
  honours_interval object r (interval_min ray_t) ->
  hittable_list_hit (hittable_list_add l object) r ray_t rec
  = (let '(found, h) := hittable_list_hit l r ray_t rec in
     if found
     then match individual_hit object r (mk_interval (interval_min ray_t) (t h)) rec0 with
          | Some h' => (true, h')
          | None => (true, h)
          end
     else match individual_hit object r ray_t rec0 with
          | Some h' => (true, h')
          | None => (false, rec)
          end)
  /\ (fst (hittable_list_hit l r ray_t rec) = true ->
      fst (hittable_list_hit (hittable_list_add l object) r ray_t rec) = true
      /\ (t (snd (hittable_list_hit (hittable_list_add l object) r ray_t rec))
          <=? t (snd (hittable_list_hit l r ray_t rec))) = true).
Proof.
  intros Hall Hobj.
  assert (Hall' : forall o, In o (objects (hittable_list_add l object)) ->
                    honours_interval o r (interval_min ray_t)).
  { intros o Hin. simpl in Hin. apply in_app_or in Hin.
    destruct Hin as [Hin | [<- | []]]; [apply Hall; exact Hin | exact Hobj]. }
  assert (Heq : hittable_list_hit (hittable_list_add l object) r ray_t rec
    = (let '(found, h) := hittable_list_hit l r ray_t rec in
     if found
     then match individual_hit object r (mk_interval (interval_min ray_t) (t h)) rec0 with
          | Some h' => (true, h')
          | None => (true, h)
          end
     else match individual_hit object r ray_t rec0 with
          | Some h' => (true, h')
          | None => (false, rec)
          end)).
  { rewrite (hittable_list_hit_minimum _ r ray_t rec rec0 Hall').
    rewrite (hittable_list_hit_minimum l r ray_t rec rec0 Hall).
    simpl objects. rewrite individual_hits_app, minimum_t_hit_app, individual_hits_one.
    destruct Hobj as [nearest Hn].
    rewrite (individual_hit_reports object r ray_t rec0 nearest Hn).
    destruct (minimum_t_hit (individual_hits (objects l) r ray_t rec0)) as [m|] eqn:Hm.
    - pose proof (individual_hits_below (objects l) r ray_t rec0 Hall m
                    (minimum_t_hit_in _ _ Hm)) as Hmb.
      rewrite (individual_hit_reports object r
                 (mk_interval (interval_min ray_t) (t m)) rec0 nearest Hn).
      simpl interval_max.
      destruct nearest as [h|]; [ | reflexivity].
      destruct (t h <? interval_max ray_t) eqn:Hh.
      + unfold nearest_from. simpl fold_left. destruct (t h <? t m); reflexivity.
      + unfold nearest_from. simpl fold_left.
        destruct (t h <? t m) eqn:Hlt; [ | reflexivity].
        rewrite (float_ltb_trans _ _ _ Hlt Hmb) in Hh. discriminate Hh.
    - destruct nearest as [h|]; [ | reflexivity].
      destruct (t h <? interval_max ray_t); reflexivity. }
  split; [exact Heq | ].
  rewrite Heq. clear Heq.
  rewrite (hittable_list_hit_minimum l r ray_t rec rec0 Hall).
  destruct (minimum_t_hit (individual_hits (objects l) r ray_t rec0)) as [m|] eqn:Hm;
    [ | discriminate].
  intros _. simpl fst. simpl snd.
  pose proof (individual_hits_below (objects l) r ray_t rec0 Hall m
                (minimum_t_hit_in _ _ Hm)) as Hmb.
  destruct Hobj as [nearest Hn].
  rewrite (individual_hit_reports object r
             (mk_interval (interval_min ray_t) (t m)) rec0 nearest Hn).
  simpl interval_max.
  destruct nearest as [h|].
  - destruct (t h <? t m) eqn:Hlt; simpl.
    + split; [reflexivity | exact (float_ltb_leb _ _ Hlt)].
    + split; [reflexivity | exact (float_leb_refl _ _ Hmb)].
  - simpl. split; [reflexivity | exact (float_leb_refl _ _ Hmb)].
Qed.

(** X7.  For members that honour their interval, a collection nested in
    a collection reports the hit of the flat collection in which the
    members of the inner one take its place, ties included. *)
Theorem hittable_list_hit_flatten (front back : list hittable) (inner : hittable_list)
    (r : ray) (ray_t : interval) (rec : hit_record) :
  (forall o, In o (front ++ objects inner ++ back) ->
     honours_interval o r (interval_min ray_t)) ->
  hittable_list_hit (mk_hittable_list (front ++ hittable_list_hit inner :: back))
    r ray_t rec
  = hittable_list_hit (mk_hittable_list (front ++ objects inner ++ back)) r ray_t rec.
Proof.
  intros Hall.
  assert (Hfront : forall o, In o front -> honours_interval o r (interval_min ray_t))
    by (intros o Hin; apply Hall; apply in_or_app; left; exact Hin).
  assert (Hinner : forall o, In o (objects inner) ->
                     honours_interval o r (interval_min ray_t))
    by (intros o Hin; apply Hall; apply in_or_app; right; apply in_or_app; left;
        exact Hin).
  assert (Hback : forall o, In o back -> honours_interval o r (interval_min ray_t))
    by (intros o Hin; apply Hall; apply in_or_app; right; apply in_or_app; right;
        exact Hin).
  assert (Hnested : forall o, In o (front ++ hittable_list_hit inner :: back) ->
                      honours_interval o r (interval_min ray_t)).
  { intros o Hin. apply in_app_or in Hin. destruct Hin as [Hin | [<- | Hin]].
    - exact (Hfront o Hin).
    - eexists. exact (hittable_list_reports_nearest inner r _ Hinner).
    - exact (Hback o Hin). }
  rewrite (hittable_list_hit_minimum (mk_hittable_list _) r ray_t rec hit_record_init
             Hnested).
  rewrite (hittable_list_hit_minimum (mk_hittable_list _) r ray_t rec hit_record_init
             Hall).
  simpl objects.
  rewrite !individual_hits_app.
  change (hittable_list_hit inner :: back) with ([hittable_list_hit inner] ++ back).
  rewrite individual_hits_app, individual_hits_one.
  assert (Hown : individual_hit (hittable_list_hit inner) r ray_t hit_record_init
                 = minimum_t_hit (individual_hits (objects inner) r ray_t hit_record_init)).
  { unfold individual_hit.
    rewrite (hittable_list_hit_minimum inner r ray_t hit_record_init hit_record_init
               Hinner).
    destruct (minimum_t_hit _); reflexivity. }
  rewrite Hown.
  unfold minimum_t_hit at 1 3. rewrite !fold_left_app.
  rewrite (fold_nearer_minimum (interval_max ray_t)
             (individual_hits (objects inner) r ray_t hit_record_init)); [reflexivity | | ].
  - exact (individual_hits_below (objects inner) r ray_t hit_record_init Hinner).
  - intros b Hb. destruct (fold_nearer_in _ _ _ Hb) as [Hs | Hin]; [discriminate Hs | ].
    exact (individual_hits_below front r ray_t hit_record_init Hfront b Hin).
Qed.

(** X27.  For members that honour their interval, a member that the ray
    misses over [ray_t] can be taken out of the collection without
    changing what [hit] returns. *)
Theorem hittable_list_hit_skips_missed (front back : list hittable) (object : hittable)
    (r : ray) (ray_t : interval) (rec : hit_record) :
  (forall o, In o (front ++ object :: back) ->
     honours_interval o r (interval_min ray_t)) ->
  fst (object r ray_t hit_record_init) = false ->
  hittable_list_hit (mk_hittable_list (front ++ object :: back)) r ray_t rec
  = hittable_list_hit (mk_hittable_list (front ++ back)) r ray_t rec.
Proof.
  intros Hall Hmiss.
  assert (Hall' : forall o, In o (front ++ back) ->
                    honours_interval o r (interval_min ray_t)).
  { intros o Hin. apply Hall. apply in_app_or in Hin. apply in_or_app.
    destruct Hin as [Hin | Hin]; [left; exact Hin | right; right; exact Hin]. }
  rewrite (hittable_list_hit_minimum (mk_hittable_list _) r ray_t rec hit_record_init
             Hall).
  rewrite (hittable_list_hit_minimum (mk_hittable_list _) r ray_t rec hit_record_init
             Hall').
  simpl objects. rewrite !individual_hits_app.
  change (object :: back) with ([object] ++ back).
  rewrite individual_hits_app, individual_hits_one.
  unfold individual_hit at 1.
  destruct (object r ray_t hit_record_init) as [found h]. simpl in Hmiss. subst found.
  reflexivity.
Qed.

(** X8.  For members that honour their interval, the order of the
    members changes neither whether the collection reports a hit nor the
    [t] of the hit (it can change which of two hits at the same [t] is
    returned). *)
Theorem hittable_list_hit_permutation (l1 l2 : hittable_list) (r : ray)
    (ray_t : interval) (rec : hit_record) :
  Permutation (objects l1) (objects l2) ->
  (forall o, In o (objects l1) -> honours_interval o r (interval_min ray_t)) ->
  fst (hittable_list_hit l1 r ray_t rec) = fst (hittable_list_hit l2 r ray_t rec)
  /\ (fst (hittable_list_hit l1 r ray_t rec) = true ->
      (t (snd (hittable_list_hit l1 r ray_t rec))
       =? t (snd (hittable_list_hit l2 r ray_t rec))) = true).
Proof.
  intros Hperm Hall1.
  assert (Hall2 : forall o, In o (objects l2) ->
                    honours_interval o r (interval_min ray_t)).
  { intros o Hin. apply Hall1.
    exact (Permutation_in o (Permutation_sym Hperm) Hin). }
  rewrite (hittable_list_hit_minimum l1 r ray_t rec hit_record_init Hall1).
  rewrite (hittable_list_hit_minimum l2 r ray_t rec hit_record_init Hall2).
  assert (Hhits : Permutation (individual_hits (objects l1) r ray_t hit_record_init)
                    (individual_hits (objects l2) r ray_t hit_record_init))
    by (unfold individual_hits; apply Permutation_flat_map; exact Hperm).
  pose proof (individual_hits_below (objects l1) r ray_t hit_record_init Hall1) as Hb1.
  pose proof (individual_hits_below (objects l2) r ray_t hit_record_init Hall2) as Hb2.
  destruct (minimum_t_hit (individual_hits (objects l1) r ray_t hit_record_init))
    as [m1|] eqn:Hm1;
    destruct (minimum_t_hit (individual_hits (objects l2) r ray_t hit_record_init))
      as [m2|] eqn:Hm2; simpl.
  - split; [reflexivity | intros _].
    pose proof (minimum_t_hit_in _ _ Hm1) as Hin1.
    pose proof (minimum_t_hit_in _ _ Hm2) as Hin2.
    destruct (minimum_t_hit_le _ _ Hb1 m2
                (Permutation_in m2 (Permutation_sym Hhits) Hin2)) as [x [Hx Hle12]].
    destruct (minimum_t_hit_le _ _ Hb2 m1 (Permutation_in m1 Hhits Hin1))
      as [y [Hy Hle21]].
    rewrite Hm1 in Hx. injection Hx as <-.
    rewrite Hm2 in Hy. injection Hy as <-.
    exact (float_leb_antisym _ _ Hle12 Hle21).
  - apply minimum_t_hit_none in Hm2.
    pose proof (minimum_t_hit_in _ _ Hm1) as Hin1.
    pose proof (Permutation_in m1 Hhits Hin1) as Hin2.
    rewrite Hm2 in Hin2. destruct Hin2.
  - apply minimum_t_hit_none in Hm1.
    pose proof (minimum_t_hit_in _ _ Hm2) as Hin2.
    pose proof (Permutation_in m2 (Permutation_sym Hhits) Hin2) as Hin1.
    rewrite Hm1 in Hin1. destruct Hin1.
  - split; [reflexivity | discriminate].
Qed.

End HittableListMore.

(* ================================================================== *)
(** * More on hit records                                            *)
(* ================================================================== *)

Section HitRecordMore.
Local Open Scope float_scope.

Lemma vec3_neg_involutive (v : vec3) : (- - v)%vec3 = v.
Proof.
  destruct v as [x y z]. unfold vec3_neg. simpl.
  rewrite !float_opp_involutive. reflexivity.
Qed.

(** The dot product against the negated vector is negative exactly when
    the dot product is positive. *)
Lemma dot_neg_r_neg (u v : vec3) :
  (dot u (- v)%vec3 <? 0) = (0 <? dot u v).
Proof.
  rewrite !FloatAxioms.ltb_spec. unfold SFltb.
  rewrite <- (SFcompare_forget_zero_sign_l (Prim2SF (dot u (- v)%vec3))), dot_neg_r.
  rewrite SFcompare_forget_zero_sign_l.
  change (Prim2SF 0) with (S754_zero false).
  rewrite SFcompare_opp_zero.
  rewrite (SFcompare_antisym (Prim2SF (dot u v)) (S754_zero false)).
  reflexivity.
Qed.

(** X9.  When [dot(r.direction, outward_normal)] is negative or positive,
    [set_face_normal] stores the same normal for [outward_normal] and for
    its negation; only [front_face] differs. *)
Theorem set_face_normal_either_orientation (rec : hit_record) (r : ray)
    (outward_normal : vec3) :
  (dot (direction r) outward_normal <? 0) = true
  \/ (0 <? dot (direction r) outward_normal) = true ->
  normal (set_face_normal rec r (- outward_normal)%vec3)
  = normal (set_face_normal rec r outward_normal)
  /\ front_face (set_face_normal rec r (- outward_normal)%vec3)
     = negb (front_face (set_face_normal rec r outward_normal)).
Proof.
  unfold set_face_normal. simpl. rewrite dot_neg_r_neg.
  intros [Hneg | Hpos].
  - rewrite Hneg, (float_leb_nlt _ _ (float_ltb_leb _ _ Hneg)).
    split; [apply vec3_neg_involutive | reflexivity].
  - rewrite Hpos, (float_leb_nlt _ _ (float_ltb_leb _ _ Hpos)).
    split; reflexivity.
Qed.

(** X10.  When [dot(r.direction, outward_normal)] is zero, the ray grazing
    the surface, [set_face_normal] sets [front_face] to false and stores
    the negated normal, for [outward_normal] and for its negation alike:
    here the stored normal depends on the orientation handed in. *)
Theorem set_face_normal_grazing (rec : hit_record) (r : ray) (outward_normal : vec3) :
  (dot (direction r) outward_normal =? 0) = true ->
  set_face_normal rec r outward_normal
  = mk_hit_record (point rec) (- outward_normal)%vec3 (t rec) (mat rec) false
  /\ set_face_normal rec r (- outward_normal)%vec3
     = mk_hit_record (point rec) outward_normal (t rec) (mat rec) false.
Proof.
  intros H. destruct (float_eqb_nlt _ _ H) as [H1 H2].
  unfold set_face_normal. rewrite dot_neg_r_neg, H1, H2, vec3_neg_involutive.
  split; reflexivity.
Qed.

End HitRecordMore.

(* ================================================================== *)
(** * More on materials                                              *)
(* ================================================================== *)

Section MaterialsMore.
Context {E : externals}.
Local Open Scope float_scope.

(** The attenuation that [scatter] writes is that of the material, on
    every path. *)
Lemma scatter_attenuation (m : material) (r_in : ray) (hit : hit_record) (g : rng) :
  attenuation (fst (scatter m r_in hit g)) = material_attenuation m.
Proof.
  destruct m as [self | self | self]; simpl.
  - unfold lambertian_scatter. destruct (random_unit_vector g). reflexivity.
  - unfold metal_scatter. destruct (random_unit_vector g). reflexivity.
  - unfold dielectric_scatter.
    destruct (1 <? _); [ | destruct (random_double g)]; reflexivity.
Qed.

(** X11.  Of the three materials only [metal] absorbs: when the virtual
    call [mat->scatter] returns [false], the material is a metal and the
    direction of the scattered ray it wrote is not on the side of the
    normal ([dot(scattered.direction, normal) > 0] is false). *)
Theorem scatter_absorbs_only_metal (m : material) (r_in : ray) (hit : hit_record)
    (g : rng) :
  did_scatter (fst (scatter m r_in hit g)) = false ->
  exists self : metal,
    m = Metal self
    /\ (0 <? dot (direction (scattered (fst (scatter m r_in hit g)))) (normal hit))
       = false.
Proof.
  destruct m as [self | self | self]; simpl.
  - unfold lambertian_scatter. destruct (random_unit_vector g). discriminate.
  - intros H. exists self. split; [reflexivity | ].
    unfold metal_scatter in *. destruct (random_unit_vector g). exact H.
  - unfold dielectric_scatter.
    destruct (1 <? _); [ | destruct (random_double g)]; discriminate.
Qed.

(** X12.  What [scatter] draws from the random source: one
    [random_unit_vector] for a [lambertian] or a [metal]; for a
    [dielectric] nothing when [cannot_refract] holds, the right operand
    of [||] being skipped, and one [random_double] otherwise. *)
Theorem scatter_random_source (m : material) (r_in : ray) (hit : hit_record)
    (g : rng) :
  snd (scatter m r_in hit g)
  = match m with
    | Lambertian _ | Metal _ => snd (random_unit_vector g)
    | Dielectric self =>
        if cannot_refract self r_in hit then g else snd (random_double g)
    end.
Proof.
  destruct m as [self | self | self]; simpl.
  - unfold lambertian_scatter. destruct (random_unit_vector g). reflexivity.
  - unfold metal_scatter. destruct (random_unit_vector g). reflexivity.
  - unfold dielectric_scatter, cannot_refract.
    destruct (1 <? _); [ | destruct (random_double g)]; reflexivity.
Qed.

(** X13.  When refraction is impossible ([refraction_ratio * sin_theta >
    1.0]), [dielectric::scatter] reflects: the scattered ray leaves the
    hit point along [reflect(unit_direction, normal)], the attenuation is
    [color(1.0, 1.0, 1.0)] and the random source is left as it was. *)
Theorem dielectric_scatter_total_internal_reflection (self : dielectric) (r_in : ray)
    (hit : hit_record) (g : rng) :
  cannot_refract self r_in hit = true ->
  dielectric_scatter self r_in hit g
  = (mk_scatter_result true (mk_vec3 1 1 1)
       (mk_ray (point hit) (reflect (unit_vector (direction r_in)) (normal hit))),
     g).
Proof.
  unfold dielectric_scatter, cannot_refract. cbn zeta.
  intros ->. reflexivity.
Qed.

(** X14.  [scatter] reads the direction of the incoming ray and the
    members [point], [normal] and [front_face] of the hit record, and
    nothing else of them: two calls that agree on these return the same
    result, whatever the origin of the ray and the [t] and [mat] of the
    record. *)
Theorem scatter_reads (m : material) (r_in r_in' : ray) (hit hit' : hit_record)
    (g : rng) :
  direction r_in = direction r_in' ->
  point hit = point hit' -> normal hit = normal hit' ->
  front_face hit = front_face hit' ->
  scatter m r_in hit g = scatter m r_in' hit' g.
Proof.
  intros Hd Hp Hn Hf.
  destruct m as [self | self | self]; simpl.
  - unfold lambertian_scatter. rewrite Hp, Hn. reflexivity.
  - unfold metal_scatter. rewrite Hd, Hp, Hn. reflexivity.
  - unfold dielectric_scatter. rewrite Hd, Hp, Hn, Hf. reflexivity.
Qed.

End MaterialsMore.

(* ================================================================== *)
(** * More on the camera                                             *)
(* ================================================================== *)

Section CameraMore.
Context {E : externals}.
Local Open Scope float_scope.

Lemma vec3_mul_black (a c : color) :
  vec3_finite a = true -> is_black c = true -> is_black (vec3_mul a c) = true.
Proof.
  unfold vec3_finite, is_black, vec3_mul. simpl. intros Ha Hc.
  apply andb_true_iff in Ha. destruct Ha as [Ha Haz].
  apply andb_true_iff in Ha. destruct Ha as [Hax Hay].
  apply andb_true_iff in Hc. destruct Hc as [Hc Hcz].
  apply andb_true_iff in Hc. destruct Hc as [Hcx Hcy].
  rewrite (mul_finite_zero _ _ Hax Hcx), (mul_finite_zero _ _ Hay Hcy),
    (mul_finite_zero _ _ Haz Hcz). reflexivity.
Qed.

Lemma ray_color_some (world : hittable) (r : ray) (depth : Z) (g : rng) :
  hits_carry_material world ->
  exists (c : color) (g' : rng), ray_color r depth world g = Some (c, g').
Proof.
  intros Hw.
  remember (Z.to_nat depth) as n eqn:Hn.
  revert depth r g Hn.
  induction n as [|n IH]; intros depth r g Hn; rewrite ray_color_equation.
  - assert (Hd : (depth <=? 0)%Z = true) by (apply Z.leb_le; lia).
    rewrite Hd. eexists. eexists. reflexivity.
  - destruct (depth <=? 0)%Z; [eexists; eexists; reflexivity | ].
    specialize (Hw r).
    destruct (world r (mk_interval 0.001 infinity) hit_record_init) as [found hit].
    simpl in Hw.
    destruct found; [ | eexists; eexists; reflexivity].
    destruct (mat hit) as [m|]; [ | exfalso; apply Hw; reflexivity].
    destruct (scatter m r hit g) as [s g1].
    destruct (did_scatter s); [ | eexists; eexists; reflexivity].
    destruct (IH (depth - 1)%Z (scattered s) g1 ltac:(lia)) as [c [g2 Hc]].
    rewrite Hc. eexists. eexists. reflexivity.
Qed.

Lemma sample_loop_some (world : hittable) (cam : camera) (i j : Z)
    (remaining : nat) (pixel_color : color) (g : rng) :
  hits_carry_material world ->
  exists (c : color) (g' : rng),
    sample_loop remaining cam world i j pixel_color g = Some (c, g').
Proof.
  intros Hw. revert pixel_color g.
  induction remaining as [|remaining IH]; intros pixel_color g; simpl.
  - eexists. eexists. reflexivity.
  - destruct (get_ray cam i j g) as [r g1].
    destruct (ray_color_some world r (max_depth cam) g1 Hw) as [c [g2 Hc]].
    rewrite Hc. apply IH.
Qed.

Lemma render_pixel_some (world : hittable) (cam : camera) (i j : Z) (g : rng) :
  hits_carry_material world ->
  exists (call : write_color_call) (g' : rng),
    render_pixel cam world i j g = Some (call, g').
Proof.
  intros Hw. unfold render_pixel.
  destruct (sample_loop_some world cam i j (Z.to_nat (samples_per_pixel cam))
              (mk_vec3 0 0 0) g Hw) as [c [g' Hc]].
  rewrite Hc. eexists. eexists. reflexivity.
Qed.

Lemma render_scanline_some (world : hittable) (cam : camera) (remaining : nat)
    (i j : Z) (g : rng) :
  hits_carry_material world ->
  exists (calls : list write_color_call) (g' : rng),
    render_scanline remaining cam world i j g = Some (calls, g').
Proof.
  intros Hw. revert i g.
  induction remaining as [|remaining IH]; intros i g; simpl.
  - eexists. eexists. reflexivity.
  - destruct (render_pixel_some world cam i j g Hw) as [call [g1 Hp]]. rewrite Hp.
    destruct (IH (i + 1)%Z g1) as [calls [g2 Hr]]. rewrite Hr.
    eexists. eexists. reflexivity.
Qed.

Lemma render_scanlines_some (world : hittable) (cam : camera) (remaining : nat)
    (j : Z) (g : rng) :
  hits_carry_material world ->
  exists (calls : list write_color_call) (g' : rng),
    render_scanlines remaining cam world j g = Some (calls, g').
Proof.
  intros Hw. revert j g.
  induction remaining as [|remaining IH]; intros j g; simpl.
  - eexists. eexists. reflexivity.
  - destruct (render_scanline_some world cam (Z.to_nat (image_width cam)) 0 j g Hw)
      as [row [g1 Hrow]]. rewrite Hrow.
    destruct (IH (j + 1)%Z g1) as [rows [g2 Hrows]]. rewrite Hrows.
    eexists. eexists. reflexivity.
Qed.

(** X15.  In a world whose hits carry a material, [ray_color] returns a
    colour for every ray, depth and state of the random source, and
    [render] completes for every camera: no null [hit.mat] is
    dereferenced and the recursion ends. *)
Theorem render_defined (world : hittable) :
  hits_carry_material world ->
  (forall (r : ray) (depth : Z) (g : rng),
     exists (c : color) (g' : rng), ray_color r depth world g = Some (c, g'))
  /\ (forall (cam : camera) (g : rng),
        exists (calls : list write_color_call) (g' : rng),
          render cam world g = Some (calls, g')).
Proof.
  intros Hw. split.
  - intros r depth g. exact (ray_color_some world r depth g Hw).
  - intros cam g. exact (render_scanlines_some world cam _ 0 g Hw).
Qed.

(** X16.  With [depth > 0], a hit whose record carries no material makes
    [ray_color] dereference a null [hit.mat]: the behaviour is
    undefined. *)
Theorem ray_color_null_material (world : hittable) (r : ray) (depth : Z) (g : rng) :
  (0 < depth)%Z ->
  fst (world r (mk_interval 0.001 infinity) hit_record_init) = true ->
  mat (snd (world r (mk_interval 0.001 infinity) hit_record_init)) = None ->
  ray_color r depth world g = None.
Proof.
  intros Hd Hfound Hmat. rewrite ray_color_equation.
  destruct (depth <=? 0)%Z eqn:Hd'; [apply Z.leb_le in Hd'; lia | ].
  destruct (world r _ hit_record_init) as [found hit]. simpl in *.
  subst found. rewrite Hmat. reflexivity.
Qed.

(** X17.  In a world that every ray hits on a material of finite
    attenuation, [ray_color] returns black (every component a zero) for
    every ray and depth: light comes from the background only, and each
    path ends absorbed or out of depth. *)
Theorem ray_color_enclosed_is_black (world : hittable) (r : ray) (depth : Z) (g : rng) :
  encloses world ->
  exists (c : color) (g' : rng),
    ray_color r depth world g = Some (c, g') /\ is_black c = true.
Proof.
  intros Hw.
  remember (Z.to_nat depth) as n eqn:Hn.
  revert depth r g Hn.
  induction n as [|n IH]; intros depth r g Hn; rewrite ray_color_equation.
  - assert (Hd : (depth <=? 0)%Z = true) by (apply Z.leb_le; lia).
    rewrite Hd. eexists. eexists. split; reflexivity.
  - destruct (depth <=? 0)%Z; [eexists; eexists; split; reflexivity | ].
    destruct (Hw r) as [Hfound [m [Hm Hfin]]].
    destruct (world r (mk_interval 0.001 infinity) hit_record_init) as [found hit].
    simpl in Hfound, Hm. subst found. rewrite Hm.
    pose proof (scatter_attenuation m r hit g) as Hatt.
    destruct (scatter m r hit g) as [s g1]. simpl in Hatt.
    destruct (did_scatter s); [ | eexists; eexists; split; reflexivity].
    destruct (IH (depth - 1)%Z (scattered s) g1 ltac:(lia)) as [c [g2 [Hc Hblack]]].
    rewrite Hc. eexists. eexists. split; [reflexivity | ].
    rewrite Hatt. apply vec3_mul_black; assumption.
Qed.

(** X18.  With [depth = 1], a ray that hits a material of finite
    attenuation is coloured black, scattered or not; the random source is
    advanced by the one call of [scatter]. *)
Theorem ray_color_last_bounce_is_black (world : hittable) (r : ray) (m : material)
    (g : rng) :
  fst (world r (mk_interval 0.001 infinity) hit_record_init) = true ->
  mat (snd (world r (mk_interval 0.001 infinity) hit_record_init)) = Some m ->
  vec3_finite (material_attenuation m) = true ->
  exists c : color,
    ray_color r 1 world g
    = Some (c, snd (scatter m r
                      (snd (world r (mk_interval 0.001 infinity) hit_record_init)) g))
    /\ is_black c = true.
Proof.
  intros Hfound Hm Hfin. rewrite ray_color_equation.
  change (1 <=? 0)%Z with false. cbv iota.
  destruct (world r (mk_interval 0.001 infinity) hit_record_init) as [found hit].
  cbn [fst snd] in Hfound, Hm |- *. subst found. rewrite Hm.
  pose proof (scatter_attenuation m r hit g) as Hatt.
  destruct (scatter m r hit g) as [s g1]. cbn [fst snd] in Hatt |- *.
  destruct (did_scatter s).
  - rewrite (ray_color_equation (scattered s)).
    change (1 - 1 <=? 0)%Z with true. cbv iota.
    eexists. split; [reflexivity | ].
    rewrite Hatt. apply vec3_mul_black; [exact Hfin | reflexivity].
  - eexists. split; reflexivity.
Qed.

(** X19.  When the path from [r] ends within [n] hit tests, [ray_color]
    returns the same colour and the same state of the random source for
    every depth from [n] on: [max_depth] matters only to paths that are
    still bouncing when it runs out. *)
Theorem ray_color_depth_beyond_path (world : hittable) (n : nat) (r : ray)
    (depth : Z) (g : rng) :
  path_ends n r world g = true ->
  (Z.of_nat n <= depth)%Z ->
  ray_color r depth world g = ray_color r (Z.of_nat n) world g.
Proof.
  revert r depth g.
  induction n as [|n IH]; intros r depth g Hp Hd; [discriminate Hp | ].
  rewrite (ray_color_equation r depth), (ray_color_equation r (Z.of_nat (S n))).
  destruct (depth <=? 0)%Z eqn:H1; [apply Z.leb_le in H1; lia | ].
  destruct (Z.of_nat (S n) <=? 0)%Z eqn:H2; [apply Z.leb_le in H2; lia | ].
  simpl in Hp.
  destruct (world r (mk_interval 0.001 infinity) hit_record_init) as [[] hit];
    [ | reflexivity].
  destruct (mat hit) as [m|]; [ | reflexivity].
  destruct (scatter m r hit g) as [s g1].
  destruct (did_scatter s); [ | reflexivity].
  replace (Z.of_nat (S n) - 1)%Z with (Z.of_nat n) by lia.
  rewrite (IH (scattered s) (depth - 1)%Z g1 Hp ltac:(lia)). reflexivity.
Qed.

(** X20.  [get_ray] first draws the offset inside the pixel.  With
    [defocus_angle <= 0] the ray leaves the camera centre and nothing
    more is drawn; otherwise (also for a NaN angle) it leaves the point
    that [defocus_disk_sample] draws next.  Its direction is the sampled
    point of the pixel minus that origin. *)
Theorem get_ray_origin (cam : camera) (i j : Z) (g : rng) :
  let g1 := snd (pixel_sample_square cam g) in
  ((defocus_angle cam <=? 0) = true ->
   origin (fst (get_ray cam i j g)) = center cam
   /\ snd (get_ray cam i j g) = g1)
  /\ ((defocus_angle cam <=? 0) = false ->
      origin (fst (get_ray cam i j g)) = fst (defocus_disk_sample cam g1)
      /\ snd (get_ray cam i j g) = snd (defocus_disk_sample cam g1))
  /\ direction (fst (get_ray cam i j g))
     = (pixel00_loc cam + double_of_int i *: pixel_delta_u cam
        + double_of_int j *: pixel_delta_v cam
        + fst (pixel_sample_square cam g)
        - origin (fst (get_ray cam i j g)))%vec3.
Proof.
  unfold get_ray. cbn zeta.
  destruct (pixel_sample_square cam g) as [offset g1]. simpl.
  destruct (defocus_angle cam <=? 0).
  - simpl. repeat split; discriminate.
  - destruct (defocus_disk_sample cam g1) as [o g2]. simpl.
    repeat split; discriminate.
Qed.

Lemma render_scanline_length (remaining : nat) (cam : camera) (world : hittable)
    (i j : Z) (g g' : rng) (calls : list write_color_call) :
  render_scanline remaining cam world i j g = Some (calls, g') ->
  length calls = remaining.
Proof.
  revert i g g' calls.
  induction remaining as [|remaining IH]; intros i g g' calls; simpl.
  - intros [= <- _]. reflexivity.
  - destruct (render_pixel cam world i j g) as [[call g1]|]; [ | discriminate].
    destruct (render_scanline remaining cam world (i + 1) j g1) as [[rest g2]|] eqn:Hr;
      [ | discriminate].
    intros [= <- _]. simpl. f_equal. exact (IH _ _ _ _ Hr).
Qed.


Lemma render_scanlines_length (remaining : nat) (cam : camera) (world : hittable)
    (j : Z) (g g' : rng) (calls : list write_color_call) :
  render_scanlines remaining cam world j g = Some (calls, g') ->
  length calls = (remaining * Z.to_nat (image_width cam))%nat.
Proof.
  revert j g g' calls.
  induction remaining as [|remaining IH]; intros j g g' calls; simpl.
  - intros [= <- _]. reflexivity.
  - destruct (render_scanline _ cam world 0 j g) as [[row g1]|] eqn:Hrow; [ | discriminate].
    destruct (render_scanlines remaining cam world (j + 1) g1) as [[rows g2]|] eqn:Hrows;
      [ | discriminate].
    intros [= <- _]. rewrite length_app.
    rewrite (render_scanline_length _ _ _ _ _ _ _ _ Hrow), (IH _ _ _ _ Hrows).
    reflexivity.
Qed.



Lemma render_pixel_no_samples (cam : camera) (world : hittable) (i j : Z) (g : rng) :
  (samples_per_pixel cam <= 0)%Z ->
  render_pixel cam world i j g
  = Some (mk_write_color_call (mk_vec3 0 0 0) (samples_per_pixel cam), g).
Proof.
  intros H. unfold render_pixel.
  replace (Z.to_nat (samples_per_pixel cam)) with O by lia. reflexivity.
Qed.

Lemma render_scanline_no_samples (remaining : nat) (cam : camera) (world : hittable)
    (i j : Z) (g : rng) :
  (samples_per_pixel cam <= 0)%Z ->
  render_scanline remaining cam world i j g
  = Some (repeat (mk_write_color_call (mk_vec3 0 0 0) (samples_per_pixel cam)) remaining,
          g).
Proof.
  intros H. revert i.
  induction remaining as [|remaining IH]; intros i; simpl.
  - reflexivity.
  - rewrite (render_pixel_no_samples cam world i j g H), IH. reflexivity.
Qed.

Lemma render_scanlines_no_samples (remaining : nat) (cam : camera) (world : hittable)
    (j : Z) (g : rng) :
  (samples_per_pixel cam <= 0)%Z ->
  render_scanlines remaining cam world j g
  = Some (repeat (mk_write_color_call (mk_vec3 0 0 0) (samples_per_pixel cam))
            (remaining * Z.to_nat (image_width cam)), g).
Proof.
  intros H. revert j.
  induction remaining as [|remaining IH]; intros j; simpl.
  - reflexivity.
  - rewrite (render_scanline_no_samples _ cam world 0 j g H), IH.
    rewrite repeat_app. reflexivity.
Qed.

(** X22.  With [samples_per_pixel <= 0], [render] hands [write_color] the
    colour [(0,0,0)] and the sample count as it is for every pixel, tests
    no ray and leaves the random source as it was. *)
Theorem render_without_samples (cam : camera) (world : hittable) (g : rng) :
  (samples_per_pixel cam <= 0)%Z ->
  render cam world g
  = Some (repeat (mk_write_color_call (mk_vec3 0 0 0) (samples_per_pixel cam))
            (Z.to_nat (image_height cam) * Z.to_nat (image_width cam)), g).
Proof.
  intros H. exact (render_scanlines_no_samples _ cam world 0 g H).
Qed.

End CameraMore.

Section InitializeFacts.
Context {E : externals} {C : camera_externals}.
Local Open Scope float_scope.

Lemma static_cast_int_range (x : float) (n : Z) :
  static_cast_int x = Some n -> (- 2 ^ 31 <= n < 2 ^ 31)%Z.
Proof.
  unfold static_cast_int.
  destruct (Prim2SF x) as [s|s| |s m e]; try discriminate.
  - intros [= <-]. lia.
  - cbv zeta.
    destruct ((- 2 ^ 31 <=? _)%Z && _) eqn:Hr; [ | discriminate].
    intros [= <-]. apply andb_true_iff in Hr. destruct Hr as [H1 H2].
    apply Z.leb_le in H1. apply Z.ltb_lt in H2. split; assumption.
Qed.

Lemma initialize_image_height (cam cam' : camera) :
  initialize cam = Some cam' ->
  exists n : Z,
    static_cast_int (double_of_int (image_width cam) / aspect_ratio cam) = Some n
    /\ image_height cam' = Z.max 1 n.
Proof.
  unfold initialize.
  destruct (static_cast_int _) as [n|]; [ | discriminate].
  intros [= <-]. exists n. split; [reflexivity | ]. simpl.
  destruct (n <? 1)%Z eqn:Hn; [apply Z.ltb_lt in Hn | apply Z.ltb_ge in Hn]; lia.
Qed.

(** X23.  [initialize] sets [image_height] to [image_width /
    aspect_ratio] truncated to an [int], and to 1 when that is below 1:
    the image has at least one scanline.  It sets [center] to [lookfrom]
    and leaves the public members as they were. *)
Theorem initialize_derives_image_height (cam cam' : camera) :
  initialize cam = Some cam' ->
  (1 <= image_height cam' < 2 ^ 31)%Z
  /\ (exists n : Z,
        static_cast_int (double_of_int (image_width cam) / aspect_ratio cam) = Some n
        /\ image_height cam' = Z.max 1 n)
  /\ center cam' = lookfrom cam
  /\ (aspect_ratio cam', image_width cam', samples_per_pixel cam', max_depth cam',
      vfov cam', lookfrom cam', lookat cam', vup cam', defocus_angle cam',
      focus_dist cam')
     = (aspect_ratio cam, image_width cam, samples_per_pixel cam, max_depth cam,
        vfov cam, lookfrom cam, lookat cam, vup cam, defocus_angle cam,
        focus_dist cam).
Proof.
  intros H.
  destruct (initialize_image_height cam cam' H) as [n [Hn Hh]].
  pose proof (static_cast_int_range _ _ Hn) as Hr.
  split; [lia | ]. split; [exists n; split; assumption | ].
  unfold initialize in H. rewrite Hn in H. injection H as <-.
  split; reflexivity.
Qed.

(** X24.  [initialize] reads the public members only: run on the camera
    it has initialised, it changes nothing.  So a second [render] with
    the same camera, which initialises it again, writes what a first one
    writes from the same state of the random source. *)
Theorem initialize_idempotent (cam cam' : camera) :
  initialize cam = Some cam' ->
  initialize cam' = Some cam'
  /\ forall (world : hittable) (g : rng),
       camera_render cam' world g = camera_render cam world g.
Proof.
  intros Hi.
  assert (Hi' : initialize cam' = Some cam').
  { revert Hi. unfold initialize.
    destruct (static_cast_int (double_of_int (image_width cam) / aspect_ratio cam))
      as [n|] eqn:Hn; [ | discriminate].
    intros [= <-]. simpl. rewrite Hn. reflexivity. }
  split; [exact Hi' | ].
  intros world g. unfold camera_render. rewrite Hi, Hi'. reflexivity.
Qed.

(** X25.  A run of [camera::render] that completes declares
    [image_width] and a height of at least 1 in the header, with the
    maximum 255, and calls [write_color] height times width times: for an
    [image_width] that is not negative, exactly the number of pixels that
    the header declares. *)
Theorem camera_render_header_counts_pixels (cam : camera) (world : hittable)
    (g g' : rng) (header : image_header) (calls : list write_color_call) :
  camera_render cam world g = Some (header, calls, g') ->
  header_width header = image_width cam
  /\ (1 <= header_height header)%Z
  /\ header_max header = 255%Z
  /\ length calls
     = (Z.to_nat (header_height header) * Z.to_nat (header_width header))%nat
  /\ ((0 <= image_width cam)%Z ->
      Z.of_nat (length calls) = (header_width header * header_height header)%Z).
Proof.
  unfold camera_render.
  destruct (initialize cam) as [cam'|] eqn:Hinit; [ | discriminate].
  destruct (render cam' world g) as [[calls' g1]|] eqn:Hr; [ | discriminate].
  intros [= <- <- _].
  destruct (initialize_image_height cam cam' Hinit) as [n [Hn Hh]].
  assert (Hw : image_width cam' = image_width cam).
  { unfold initialize in Hinit. rewrite Hn in Hinit. injection Hinit as <-. reflexivity. }
  pose proof (render_scanlines_length _ _ _ _ _ _ _ Hr) as Hlen.
  simpl. rewrite Hw in *.
  split; [reflexivity | ]. split; [lia | ]. split; [reflexivity | ].
  split; [exact Hlen | ].
  intros Hpos. rewrite Hlen. nia.
Qed.

(** X26.  When [image_width / aspect_ratio] converts to the [int] [n] and
    the hits of the world carry a material, [camera::render] completes,
    with the header [image_width], [max(1, n)], 255. *)
Theorem camera_render_defined (cam : camera) (world : hittable) (g : rng) (n : Z) :
  hits_carry_material world ->
  static_cast_int (double_of_int (image_width cam) / aspect_ratio cam) = Some n ->
  exists (calls : list write_color_call) (g' : rng),
    camera_render cam world g
    = Some (mk_image_header (image_width cam) (Z.max 1 n) 255, calls, g').
Proof.
  intros Hw Hn. unfold camera_render.
  destruct (initialize cam) as [cam'|] eqn:Hi.
  - destruct (initialize_image_height cam cam' Hi) as [n' [Hn' Hh]].
    rewrite Hn in Hn'. injection Hn' as <-.
    assert (Hwd : image_width cam' = image_width cam).
    { unfold initialize in Hi. rewrite Hn in Hi. injection Hi as <-. reflexivity. }
    destruct (render_scanlines_some world cam' (Z.to_nat (image_height cam')) 0 g Hw)
      as [calls [g' Hr]].
    unfold render. rewrite Hr, Hwd, Hh. exists calls, g'. reflexivity.
  - unfold initialize in Hi. rewrite Hn in Hi. discriminate Hi.
Qed.

End InitializeFacts.

(* ================================================================== *)
(** * The theorems on concrete scenes                                  *)
(* ================================================================== *)

Section Scenes.
Local Open Scope float_scope.

(** A [two_root_shape] honours its interval: its nearest intersection
    beyond [t_min] is the smaller root when [t_min] is below it, else the
    larger root when [t_min] is below that, else none. *)
Lemma two_root_shape_honours_interval (t1 t2 : float) (r : ray) (t_min : float) :
  (t1 <=? t2) = true ->
  honours_interval (two_root_shape t1 t2) r t_min.
Proof.
  intros H12.
  exists (if t_min <? t1
          then Some (mk_hit_record (origin r + t1 *: direction r)%vec3
                       (mk_vec3 0 1 0) t1 None true)
          else if t_min <? t2
          then Some (mk_hit_record (origin r + t2 *: direction r)%vec3
                       (mk_vec3 0 1 0) t2 None true)
          else None).
  intros t_max rec. unfold two_root_shape, surrounds. simpl.
  destruct (t_min <? t1) eqn:H1; simpl.
  - destruct (t1 <? t_max) eqn:H1m; [reflexivity | ].
    destruct (t_min <? t2); simpl; [ | reflexivity].
    destruct (t2 <? t_max) eqn:H2m; [ | reflexivity].
    rewrite (float_leb_ltb_trans _ _ _ H12 H2m) in H1m. discriminate H1m.
  - destruct (t_min <? t2); simpl; [ | reflexivity].
    destruct (t2 <? t_max); reflexivity.
Qed.

Lemma plane_at_honours_interval (t0 : float) (r : ray) (t_min : float) :
  (t0 <=? t0) = true ->
  honours_interval (plane_at t0) r t_min.
Proof. apply two_root_shape_honours_interval. Qed.

(** Three shapes along the ray, with roots 5 and 7, 3 and 9, and 4: the
    collection returns the hit at 3, the minimum of the individual
    hits. *)
Lemma hittable_list_hit_nearest_shapes :
  let l := mk_hittable_list [two_root_shape 5 7; two_root_shape 3 9; plane_at 4] in
  hittable_list_hit l ray_up ray_color_interval record_before
  = (true, mk_hit_record (mk_vec3 0 3 0) (mk_vec3 0 1 0) 3 None true)
  /\ forall h,
       In h (individual_hits (objects l) ray_up ray_color_interval hit_record_init) ->
       (t (snd (hittable_list_hit l ray_up ray_color_interval record_before))
        <=? t h) = true.
Proof.
  destruct (@hittable_list_hit_nearest reference_externals
              (mk_hittable_list [two_root_shape 5 7; two_root_shape 3 9; plane_at 4])
              ray_up ray_color_interval record_before hit_record_init)
    as [Heq [Hmin _]].
  - intros object [<- | [<- | [<- | []]]];
      apply two_root_shape_honours_interval; vm_compute; reflexivity.
  - split.
    + rewrite Heq. vm_compute. reflexivity.
    + intros h Hin. exact (proj2 (Hmin h Hin)).
Defined.

(** The protocol cannot be dropped from C1: two members that ignore the
    interval and report hits at 1 and 2.  The collection returns the hit
    of the member tested last, at 2, not the minimum. *)
Remark hittable_list_hit_needs_protocol :
  let l := mk_hittable_list [always_at 1; always_at 2] in
  t (snd (hittable_list_hit l ray_up ray_color_interval record_before)) = 2
  /\ option_map t
       (minimum_t_hit (individual_hits (objects l) ray_up ray_color_interval
                         hit_record_init))
     = Some 1.
Proof. vm_compute. split; reflexivity. Qed.

(** A plane at 5 tested over [[0.001, 4]]: no hit, and the record of the
    caller is intact. *)
Lemma hittable_list_hit_miss_plane :
  snd (hittable_list_hit (mk_hittable_list [plane_at 5]) ray_up
         (mk_interval 0.001 4) record_before)
  = record_before.
Proof.
  apply (@hittable_list_hit_miss_keeps_record reference_externals).
  vm_compute. reflexivity.
Defined.

(** A ray straight up and the outward normal [(0,1,0)]: the ray leaves
    the surface from inside, [front_face] is false and the stored normal
    is [(0,-1,0)]. *)
Lemma set_face_normal_from_inside :
  let rec' := set_face_normal record_before ray_up (mk_vec3 0 1 0) in
  front_face rec' = (dot (direction ray_up) (mk_vec3 0 1 0) <? 0)
  /\ normal rec'
     = (if front_face rec' then mk_vec3 0 1 0 else (- mk_vec3 0 1 0)%vec3)
  /\ (dot (direction ray_up) (normal rec') <=? 0) = true
  /\ point rec' = point record_before /\ t rec' = t record_before
  /\ mat rec' = mat record_before.
Proof.
  apply set_face_normal_orients; vm_compute; reflexivity.
Defined.

(** [ray_color] at depth 0 in a world that would report a hit. *)
Lemma ray_color_depth_zero :
  ray_color ray_up 0 (plane_at 5) tape_half = Some (mk_vec3 0 0 0, tape_half).
Proof.
  apply (@ray_color_depth_exhausted reference_externals). lia.
Defined.

(** [ray_color] straight up into the empty world: [a = 1], the colour is
    sky-blue. *)
Lemma ray_color_up_empty_world :
  (forall world : hittable,
     fst (world ray_up (mk_interval 0.001 infinity) hit_record_init) = false ->
     ray_color ray_up 10 world tape_half = Some (sky_gradient ray_up, tape_half))
  /\ ray_color ray_up 10 (hittable_list_hit hittable_list_new) tape_half
     = Some (sky_gradient ray_up, tape_half).
Proof.
  apply (@ray_color_miss_is_sky_gradient reference_externals). lia.
Defined.

Remark sky_gradient_up : sky_gradient ray_up = mk_vec3 0.5 0.7 1.0.
Proof. vm_compute. reflexivity. Qed.

(** C4, the claim as stated fails: the one pixel of [camera_up] over the
    empty world, no jitter.  Both samples are sky-blue [(0.5, 0.7, 1)];
    [write_color] is handed their sum [(1, 1.4, 2)] and the count 2, not
    the average [(0.5, 0.7, 1)]. *)
Lemma render_pixel_hands_undivided_sum :
  exists (call : write_color_call) (cs : list color) (g' : tape),
    render_pixel camera_up (hittable_list_hit hittable_list_new) 0 0 tape_half
    = Some (call, g')
    /\ pixel_samples 2 camera_up (hittable_list_hit hittable_list_new) 0 0 tape_half
       = Some (cs, g')
    /\ cs = [mk_vec3 0.5 0.7 1.0; mk_vec3 0.5 0.7 1.0]
    /\ handed_samples call = 2%Z
    /\ handed_color call = sum_colors (mk_vec3 0 0 0) cs
    /\ vec3_x (handed_color call) = 1
    /\ vec3_x (sample_average cs (samples_per_pixel camera_up)) = 0.5
    /\ handed_color call <> sample_average cs (samples_per_pixel camera_up).
Proof.
  eexists. eexists. eexists.
  split; [vm_compute; reflexivity | ].
  split; [vm_compute; reflexivity | ].
  split; [reflexivity | ].
  split; [reflexivity | ].
  split; [vm_compute; reflexivity | ].
  split; [vm_compute; reflexivity | ].
  split; [vm_compute; reflexivity | ].
  intros H.
  apply (f_equal (fun v => vec3_x v <? 0.75)) in H.
  vm_compute in H. discriminate H.
Qed.

End Scenes.

(* ================================================================== *)
(** * More theorems on concrete scenes                               *)
(* ================================================================== *)

Section MoreScenes.
Local Open Scope float_scope.

(** The three shapes of [hittable_list_hit_nearest_shapes]: the hit at 3
    is the one that the second shape reports. *)
Lemma hittable_list_hit_reported_shapes :
  let l := mk_hittable_list [two_root_shape 5 7; two_root_shape 3 9; plane_at 4] in
  exists (object : hittable) (t_max : float) (temp : hit_record),
    In object (objects l)
    /\ object ray_up (mk_interval (interval_min ray_color_interval) t_max) temp
       = (true, snd (hittable_list_hit l ray_up ray_color_interval record_before)).
Proof.
  apply (@hittable_list_hit_reported_by_member reference_externals).
  vm_compute. reflexivity.
Defined.

(** The three shapes tested over [[0.001, 6]]. *)
Lemma hittable_list_hit_within_bound_shapes :
  let l := mk_hittable_list [two_root_shape 5 7; two_root_shape 3 9; plane_at 4] in
  In (snd (hittable_list_hit l ray_up (mk_interval 0.001 6) record_before))
     (individual_hits (objects l) ray_up (mk_interval 0.001 6) hit_record_init)
  /\ (t (snd (hittable_list_hit l ray_up (mk_interval 0.001 6) record_before)) <? 6)
     = true.
Proof.
  apply (@hittable_list_hit_within_bound reference_externals
           (mk_hittable_list [two_root_shape 5 7; two_root_shape 3 9; plane_at 4])
           ray_up (mk_interval 0.001 6) record_before hit_record_init).
  - intros object [<- | [<- | [<- | []]]];
      apply two_root_shape_honours_interval; vm_compute; reflexivity.
  - vm_compute. reflexivity.
Defined.

(** Adding a plane at 4 to a collection that hits at 5: the hit moves to 4. *)
Lemma hittable_list_add_plane :
  let l := mk_hittable_list [two_root_shape 5 7] in
  hittable_list_hit (hittable_list_add l (plane_at 4)) ray_up ray_color_interval
    record_before
  = (true, mk_hit_record (mk_vec3 0 4 0) (mk_vec3 0 1 0) 4 None true)
  /\ (t (snd (hittable_list_hit (hittable_list_add l (plane_at 4)) ray_up
               ray_color_interval record_before))
      <=? t (snd (hittable_list_hit l ray_up ray_color_interval record_before)))
     = true.
Proof.
  destruct (@hittable_list_add_hit reference_externals
              (mk_hittable_list [two_root_shape 5 7]) (plane_at 4) ray_up
              ray_color_interval record_before hit_record_init)
    as [Heq Hnear].
  - intros o [<- | []]. apply two_root_shape_honours_interval. vm_compute. reflexivity.
  - apply two_root_shape_honours_interval. vm_compute. reflexivity.
  - split.
    + rewrite Heq. vm_compute. reflexivity.
    + apply Hnear. vm_compute. reflexivity.
Defined.

(** A collection of two shapes is a member that honours its interval. *)
Lemma hittable_list_honours_interval_shapes :
  honours_interval
    (hittable_list_hit (mk_hittable_list [two_root_shape 5 7; plane_at 4]))
    ray_up 0.001.
Proof.
  apply (@hittable_list_honours_interval reference_externals).
  intros o [<- | [<- | []]];
    apply two_root_shape_honours_interval; vm_compute; reflexivity.
Defined.

(** A collection nested between two shapes, and the four shapes in one
    collection. *)
Lemma hittable_list_hit_flatten_shapes :
  hittable_list_hit
    (mk_hittable_list
       [plane_at 6;
        hittable_list_hit (mk_hittable_list [two_root_shape 5 7; plane_at 4]);
        two_root_shape 3 9])
    ray_up ray_color_interval record_before
  = hittable_list_hit
      (mk_hittable_list [plane_at 6; two_root_shape 5 7; plane_at 4; two_root_shape 3 9])
      ray_up ray_color_interval record_before.
Proof.
  apply (@hittable_list_hit_flatten reference_externals [plane_at 6]
           [two_root_shape 3 9] (mk_hittable_list [two_root_shape 5 7; plane_at 4])
           ray_up ray_color_interval record_before).
  intros o [<- | [<- | [<- | [<- | []]]]];
    apply two_root_shape_honours_interval; vm_compute; reflexivity.
Defined.

(** A plane at 9, beyond the interval [[0.001, 8.5]], between two shapes
    that are hit. *)
Lemma hittable_list_hit_skips_missed_shapes :
  hittable_list_hit
    (mk_hittable_list [two_root_shape 5 7; plane_at 9; two_root_shape 3 8])
    ray_up (mk_interval 0.001 8.5) record_before
  = hittable_list_hit (mk_hittable_list [two_root_shape 5 7; two_root_shape 3 8])
      ray_up (mk_interval 0.001 8.5) record_before.
Proof.
  apply (@hittable_list_hit_skips_missed reference_externals [two_root_shape 5 7]
           [two_root_shape 3 8] (plane_at 9) ray_up (mk_interval 0.001 8.5)
           record_before).
  - intros o [<- | [<- | [<- | []]]];
      apply two_root_shape_honours_interval; vm_compute; reflexivity.
  - vm_compute. reflexivity.
Defined.

(** The three shapes in another order. *)
Lemma hittable_list_hit_permutation_shapes :
  let l1 := mk_hittable_list [plane_at 4; two_root_shape 5 7; two_root_shape 3 9] in
  let l2 := mk_hittable_list [two_root_shape 5 7; two_root_shape 3 9; plane_at 4] in
  fst (hittable_list_hit l1 ray_up ray_color_interval record_before)
  = fst (hittable_list_hit l2 ray_up ray_color_interval record_before)
  /\ (fst (hittable_list_hit l1 ray_up ray_color_interval record_before) = true ->
      (t (snd (hittable_list_hit l1 ray_up ray_color_interval record_before))
       =? t (snd (hittable_list_hit l2 ray_up ray_color_interval record_before)))
      = true).
Proof.
  apply (@hittable_list_hit_permutation reference_externals
           (mk_hittable_list [plane_at 4; two_root_shape 5 7; two_root_shape 3 9])
           (mk_hittable_list [two_root_shape 5 7; two_root_shape 3 9; plane_at 4])
           ray_up ray_color_interval record_before).
  - exact (Permutation_cons_append [two_root_shape 5 7; two_root_shape 3 9] (plane_at 4)).
  - intros o [<- | [<- | [<- | []]]];
      apply two_root_shape_honours_interval; vm_compute; reflexivity.
Defined.

(** The ray straight up and the normals [(0,1,0)] and [(0,-1,0)]. *)
Lemma set_face_normal_either_orientation_up :
  normal (set_face_normal record_before ray_up (- mk_vec3 0 1 0)%vec3)
  = normal (set_face_normal record_before ray_up (mk_vec3 0 1 0))
  /\ front_face (set_face_normal record_before ray_up (- mk_vec3 0 1 0)%vec3)
     = negb (front_face (set_face_normal record_before ray_up (mk_vec3 0 1 0))).
Proof.
  apply set_face_normal_either_orientation. right. vm_compute. reflexivity.
Defined.

(** The ray straight up grazing a surface of normal [(1,0,0)]. *)
Lemma set_face_normal_grazing_up :
  set_face_normal record_before ray_up (mk_vec3 1 0 0)
  = mk_hit_record (point record_before) (- mk_vec3 1 0 0)%vec3 (t record_before)
      (mat record_before) false
  /\ set_face_normal record_before ray_up (- mk_vec3 1 0 0)%vec3
     = mk_hit_record (point record_before) (mk_vec3 1 0 0) (t record_before)
         (mat record_before) false.
Proof.
  apply set_face_normal_grazing. vm_compute. reflexivity.
Defined.

(** A metal of fuzz 1 hit from straight above, the random vector pointing
    straight down: the scattered direction is [(0,0,0)], the ray is
    absorbed. *)
Lemma scatter_absorbs_rough_metal :
  exists self : metal,
    Metal material_rough = Metal self
    /\ (0 <? dot (direction (scattered (fst (scatter (Metal material_rough) ray_down
                                               hit_ground tape_down))))
               (normal hit_ground))
       = false.
Proof.
  apply (@scatter_absorbs_only_metal reference_externals).
  vm_compute. reflexivity.
Defined.

(** Glass of index 1.5 left from inside at a grazing angle. *)
Lemma dielectric_scatter_grazing :
  dielectric_scatter (dielectric_new 1.5) (mk_ray (mk_vec3 0 0 0) (mk_vec3 1 0 0))
    hit_inside tape_half
  = (mk_scatter_result true (mk_vec3 1 1 1)
       (mk_ray (point hit_inside)
          (reflect (unit_vector (mk_vec3 1 0 0)) (normal hit_inside))),
     tape_half).
Proof.
  apply (@dielectric_scatter_total_internal_reflection reference_externals).
  vm_compute. reflexivity.
Defined.

(** Two rays of the same direction from different origins, two records
    that differ in [t] and [mat]. *)
Lemma scatter_reads_ground :
  scatter (Metal material_rough) ray_down hit_ground tape_down
  = scatter (Metal material_rough) (mk_ray (mk_vec3 5 5 5) (mk_vec3 0 (-1) 0))
      (mk_hit_record (mk_vec3 0 0 0) (mk_vec3 0 1 0) 9 (Some material_ground) true)
      tape_down.
Proof.
  apply (@scatter_reads reference_externals); reflexivity.
Defined.

(** A world of one surface that carries a material. *)
Lemma render_defined_surface :
  (forall (r : ray) (depth : Z) (g : tape),
     exists (c : color) (g' : tape),
       ray_color r depth (surface_at 1 material_ground) g = Some (c, g'))
  /\ (forall (cam : camera) (g : tape),
        exists (calls : list write_color_call) (g' : tape),
          render cam (surface_at 1 material_ground) g = Some (calls, g')).
Proof.
  apply (@render_defined reference_externals).
  intros r. simpl. discriminate.
Defined.

(** A shape whose hits carry no material. *)
Lemma ray_color_null_material_plane :
  ray_color ray_up 10 (plane_at 5) tape_half = None.
Proof.
  apply (@ray_color_null_material reference_externals); [lia | reflexivity | reflexivity].
Defined.

(** A surface that every ray hits at parameter 1. *)
Lemma ray_color_enclosed_surface :
  exists (c : color) (g' : tape),
    ray_color ray_up 3 (surface_at 1 material_ground) tape_down = Some (c, g')
    /\ is_black c = true.
Proof.
  apply (@ray_color_enclosed_is_black reference_externals).
  intros r. split; [reflexivity | ].
  exists material_ground. split; reflexivity.
Defined.

(** The same surface with one bounce left. *)
Lemma ray_color_last_bounce_surface :
  exists c : color,
    ray_color ray_up 1 (surface_at 1 material_ground) tape_down
    = Some (c, snd (scatter material_ground ray_up
                      (snd (surface_at 1 material_ground ray_up
                              (mk_interval 0.001 infinity) hit_record_init))
                      tape_down))
    /\ is_black c = true.
Proof.
  apply (@ray_color_last_bounce_is_black reference_externals); reflexivity.
Defined.

(** A metal of fuzz 1 that absorbs the ray from straight above: depth 10
    and depth 1 give the same result. *)
Lemma ray_color_depth_beyond_path_metal :
  ray_color ray_down 10 (surface_at 1 (Metal material_rough)) tape_down
  = ray_color ray_down (Z.of_nat 1) (surface_at 1 (Metal material_rough)) tape_down.
Proof.
  apply (@ray_color_depth_beyond_path reference_externals);
    [vm_compute; reflexivity | simpl; lia].
Defined.


(** Three by two pixels and no sample: six black pixels with the count 0,
    and no random draw. *)
Lemma render_without_samples_camera :
  render camera_no_samples (surface_at 1 material_ground) tape_half
  = Some (repeat (mk_write_color_call (mk_vec3 0 0 0) 0) 6, tape_half).
Proof.
  apply (@render_without_samples reference_externals camera_no_samples). simpl. lia.
Defined.

(** The camera of main.cc: 1200 pixels wide at 16:9, 675 scanlines. *)
Lemma initialize_camera_main :
  exists cam' : camera,
    initialize camera_main = Some cam'
    /\ image_height cam' = 675%Z
    /\ (1 <= image_height cam' < 2 ^ 31)%Z
    /\ center cam' = mk_vec3 13 2 3
    /\ image_width cam' = 1200%Z.
Proof.
  destruct (@initialize reference_externals reference_camera_externals camera_main) as [cam'|] eqn:Hi;
    [ | vm_compute in Hi; discriminate Hi].
  exists cam'. split; [reflexivity | ].
  destruct (@initialize_derives_image_height reference_externals
              reference_camera_externals camera_main cam' Hi)
    as [Hrange [[n [Hn Hh]] [Hc Hcfg]]].
  split.
  - rewrite Hh. vm_compute in Hn. injection Hn as <-. reflexivity.
  - split; [exact Hrange | ]. split; [exact Hc | ].
    injection Hcfg as _ Hw _. exact Hw.
Defined.

(** Initializing the camera of main.cc a second time changes nothing. *)
Lemma initialize_idempotent_camera_main :
  exists cam' : camera,
    initialize camera_main = Some cam'
    /\ initialize cam' = Some cam'
    /\ forall (world : hittable) (g : tape),
         camera_render cam' world g = camera_render camera_main world g.
Proof.
  destruct (@initialize reference_externals reference_camera_externals camera_main) as [cam'|] eqn:Hi;
    [ | vm_compute in Hi; discriminate Hi].
  exists cam'. split; [reflexivity | ].
  exact (@initialize_idempotent reference_externals reference_camera_externals
           camera_main cam' Hi).
Defined.

(** The camera of main.cc at 4 by 2 pixels over the empty world: the
    header declares 4 by 2 pixels and 8 are written. *)
Lemma camera_render_small :
  exists (header : image_header) (calls : list write_color_call) (g' : tape),
    camera_render camera_small (hittable_list_hit hittable_list_new) tape_half
    = Some (header, calls, g')
    /\ header_width header = 4%Z
    /\ (1 <= header_height header)%Z
    /\ header_max header = 255%Z
    /\ length calls
       = (Z.to_nat (header_height header) * Z.to_nat (header_width header))%nat.
Proof.
  destruct (@camera_render reference_externals reference_camera_externals camera_small
              (@hittable_list_hit reference_externals hittable_list_new) tape_half)
    as [[[header calls] g']|] eqn:Hr; [ | vm_compute in Hr; discriminate Hr].
  exists header, calls, g'. split; [reflexivity | ].
  destruct (@camera_render_header_counts_pixels reference_externals
              reference_camera_externals camera_small
              (hittable_list_hit hittable_list_new) tape_half g' header calls Hr)
    as [Hw [Hh [Hm [Hlen _]]]].
  repeat split; assumption.
Defined.

(** The small camera of main.cc over one surface: two scanlines of four
    pixels. *)
Lemma camera_render_defined_small :
  exists (calls : list write_color_call) (g' : tape),
    camera_render camera_small (surface_at 1 material_ground) tape_down
    = Some (mk_image_header (image_width camera_small) (Z.max 1 2) 255, calls, g').
Proof.
  apply (@camera_render_defined reference_externals reference_camera_externals).
  - intros r. simpl. discriminate.
  - vm_compute. reflexivity.
Defined.

End MoreScenes.
